(** * mirp: assembling an image stack from ITK slice files, and the
      intensity semantics of CT images

    Shallow embedding of

    - [mirp/importData/imageITKFileStack.py], [ImageITKFileStack.complete]:
      ordering of the slices, slice spacing, orientation and dimension of
      the assembled stack;
    - [mirp/_images/ct_image.py], class [CTImage]: rounding of voxel values
      to Hounsfield units and the change of class from [CTImage] to
      [GenericImage] under normalisation and scaling.

    Numbers are IEEE-754 binary64 values (Rocq's primitive floats), NumPy
    arrays are lists, Python exceptions are the [Raise] results of an error
    monad, Python objects live in a store indexed by references. *)

From Stdlib Require Import ZArith Floats Lia Sorted.
From stdpp Require Import base option list gmap strings.

Set Warnings "-inexact-float".
Local Open Scope Z_scope.

(** ** Python exceptions *)

Inductive exn : Set :=
| ValueError
| IndexError
| KeyError
| CheckError.

Inductive result (A : Type) : Type :=
| Ok (a : A)
| Raise (e : exn).

Arguments Ok {A} a.
Arguments Raise {A} e.

#[global] Instance result_ret : MRet result := @Ok.
#[global] Instance result_bind : MBind result :=
  λ A B f m, match m with Ok a => f a | Raise e => Raise e end.
#[global] Instance result_fmap : FMap result :=
  λ A B f m, match m with Ok a => Ok (f a) | Raise e => Raise e end.

(** Python's [l[i]] on a list: [IndexError] out of range. *)
Definition getitem {A} (l : list A) (i : nat) : result A :=
  match l !! i with
  | Some a => Ok a
  | None => Raise IndexError
  end.

(** A tuple or array of three entries, indexed [0], [1], [2]. *)
Record triple (A : Type) : Type := Tuple3 { item0 : A; item1 : A; item2 : A }.

Arguments Tuple3 {A} _ _ _.
Arguments item0 {A} _.
Arguments item1 {A} _.
Arguments item2 {A} _.

(** [t[::-1]] on three entries. *)
Definition reversed {A} (t : triple A) : triple A :=
  Tuple3 (item2 t) (item1 t) (item0 t).

(** ** A stable sort

    The sorts of NumPy and pandas are library code; they are modelled by
    one stable insertion sort, parametrised by the three-way comparison. *)

Section Sort.
Context {A : Type} (cmp : A → A → comparison).

(** [insert_by x l] puts [x] in front of the first entry that is not below
    it, so ahead of the entries that compare equal to it. *)
Fixpoint insert_by (x : A) (l : list A) : list A :=
  match l with
  | [] => [x]
  | y :: tl =>
      match cmp x y with
      | Gt => y :: insert_by x tl
      | _ => x :: l
      end
  end.

(** Entries that compare equal keep their order. *)
Definition stable_sort (l : list A) : list A := foldr insert_by [] l.

End Sort.

(** ** NumPy on binary64 *)

Module np.

Definition isnan (x : float) : bool := PrimFloat.is_nan x.

(** The integer nearest to [m * 2^e] for [e < 0], a tie going to the even
    neighbour. *)
Definition half_even (m : positive) (e : Z) : Z :=
  let d := 2 ^ (- e) in
  let q := Z.pos m / d in
  let r := Z.pos m mod d in
  match 2 * r ?= d with
  | Lt => q
  | Gt => q + 1
  | Eq => if Z.even q then q else q + 1
  end.

(** The binary64 number of sign [s] and integer magnitude [z < 2^53], its
    mantissa normalised to 53 bits. *)
Definition of_integer (s : bool) (z : Z) : spec_float :=
  match z with
  | Z.pos p =>
      match 53 - Z.pos (digits2_pos p) with
      | Z.pos k => S754_finite s (shift_pos k p) (Z.neg k)
      | _ => S754_finite s p 0
      end
  | _ => S754_zero s
  end.

(** [np.rint]: round to the nearest integer, ties to even; zeros, numbers
    without a fractional bit, infinities and NaN are returned as they are. *)
Definition rint (x : float) : float :=
  match Prim2SF x with
  | S754_finite s m e =>
      if 0 <=? e then x else SF2Prim (of_integer s (half_even m e))
  | _ => x
  end.

Definition power_of_ten (decimals : nat) : float :=
  PrimFloat.of_uint63 (Uint63.of_Z (10 ^ Z.of_nat decimals)).

(** [np.around(x, decimals)], [np.round]: with no decimals this is [rint];
    otherwise NumPy multiplies by the power of ten, rounds with [rint] and
    divides again. *)
Definition around (x : float) (decimals : nat) : float :=
  match decimals with
  | O => rint x
  | _ => (rint (x * power_of_ten decimals) / power_of_ten decimals)%float
  end.

(** [np.round(a)] on an array. *)
Definition round (a : list float) : list float := map rint a.

(** [np.diff]: [out[i] = a[i+1] - a[i]]. *)
Fixpoint diff (a : list float) : list float :=
  match a with
  | x :: (y :: _) as tl => (y - x)%float :: diff tl
  | _ => []
  end.

(** [np.power(a, 2.0)], elementwise: the square, as one rounded product. *)
Definition power2 (a : list float) : list float :=
  map (λ x, (x * x)%float) a.

Definition sqrt (a : list float) : list float := map PrimFloat.sqrt a.

(** Elementwise sum of two arrays of the same shape. *)
Definition add (a b : list float) : list float :=
  zip_with (λ x y, (x + y)%float) a b.

(** [np.minimum] as a reduction step: a NaN on the left is kept. *)
Definition minimum (x y : float) : float :=
  if (x <? y)%float || isnan x then x else y.

(** [np.min]: a zero-size array has no minimum and raises [ValueError]. *)
Definition min (a : list float) : result float :=
  match a with
  | [] => Raise ValueError
  | x :: tl => Ok (foldl minimum x tl)
  end.

(** [a / c] with a scalar [c]. *)
Definition divide (a : list float) (c : float) : list float :=
  map (λ x, (x / c)%float) a.

(** [a > c] and [a <= c] with a scalar [c]: boolean masks. *)
Definition greater (a : list float) (c : float) : list bool :=
  map (λ x, (c <? x)%float) a.

Definition less_equal (a : list float) (c : float) : list bool :=
  map (λ x, (x <=? c)%float) a.

Definition any (mask : list bool) : bool := existsb id mask.

(** [a[mask]]: the entries of [a] at which the mask is set. *)
Fixpoint boolean_index (a : list float) (mask : list bool) : list float :=
  match a, mask with
  | x :: a', b :: mask' =>
      if b then x :: boolean_index a' mask' else boolean_index a' mask'
  | _, _ => []
  end.

(** The eight partial sums of NumPy's pairwise summation: [r[j] = a[j]],
    then [r[j] += a[i + j]] for every further whole block of eight. The
    result is the partial sums and the entries that are left. *)
Fixpoint add_blocks (r : list float) (blocks : nat) (a : list float)
  : list float * list float :=
  match blocks with
  | O => (r, a)
  | S k =>
      add_blocks (zip_with (λ x y, (x + y)%float) r (take 8 a)) k (drop 8 a)
  end.

(** The sum of at most 128 entries: fewer than 8 are added left to right
    from 0.0; otherwise the eight partial sums are combined in pairs and
    the entries left over are added one by one. *)
Definition block_sum (a : list float) : float :=
  let '(r, rest) := add_blocks (take 8 a) (length a / 8 - 1) (drop 8 a) in
  match r with
  | [r0; r1; r2; r3; r4; r5; r6; r7] =>
      foldl (λ acc x, (acc + x)%float)
        (((r0 + r1) + (r2 + r3)) + ((r4 + r5) + (r6 + r7)))%float rest
  | _ => foldl (λ acc x, (acc + x)%float) 0%float a
  end.

(** NumPy's pairwise summation: more than 128 entries are split in two
    halves, the first a multiple of eight long, and the sums of the halves
    are added. Every call is on a shorter list, so [length a] is fuel
    enough. *)
Fixpoint pairwise_sum (fuel : nat) (a : list float) : float :=
  if (length a <=? 128)%nat then block_sum a
  else
    match fuel with
    | O => block_sum a
    | S fuel' =>
        let n2 := (length a / 2 - (length a / 2) mod 8)%nat in
        (pairwise_sum fuel' (take n2 a) + pairwise_sum fuel' (drop n2 a))%float
    end.

(** [np.sum], which is [np.add.reduce]: the identity 0.0 plus the pairwise
    sum of the entries. *)
Definition sum (a : list float) : float :=
  (0 + pairwise_sum (length a) a)%float.

Definition of_nat (n : nat) : float :=
  PrimFloat.of_uint63 (Uint63.of_Z (Z.of_nat n)).

(** [np.mean]: the sum divided by the number of entries; the mean of an
    empty array is [0/0], a NaN. *)
Definition mean (a : list float) : float :=
  (sum a / of_nat (length a))%float.

(** [np.insert(a, 0, v)]. *)
Definition insert0 (a : list float) (v : float) : list float := v :: a.

Fixpoint cumsum_from (acc : float) (a : list float) : list float :=
  match a with
  | [] => []
  | x :: tl => let acc' := (acc + x)%float in acc' :: cumsum_from acc' tl
  end.

(** [np.cumsum]: [out[0] = a[0]], [out[i] = out[i-1] + a[i]]. *)
Definition cumsum (a : list float) : list float :=
  match a with
  | [] => []
  | x :: tl => x :: cumsum_from x tl
  end.

(** Order of a sort on floats: NaN after every number. *)
Definition compare (x y : float) : comparison :=
  if isnan x then (if isnan y then Eq else Gt)
  else if isnan y then Lt
  else match (x ?= y)%float with
       | FLt => Lt
       | FGt => Gt
       | _ => Eq
       end.

Definition sort (a : list float) : list float := stable_sort compare a.

Fixpoint drop_repeats (a : list float) : list float :=
  match a with
  | x :: (y :: _) as tl =>
      match compare x y with
      | Eq => drop_repeats tl
      | _ => x :: drop_repeats tl
      end
  | _ => a
  end.

(** [np.unique]: the sorted distinct values. *)
Definition unique (a : list float) : list float := drop_repeats (sort a).

End np.

(** ** The value of a binary64 number *)

Definition signed (s : bool) (z : Z) : Z := if s then - z else z.

(** Zeros and the numbers with a mantissa: neither NaN nor an infinity. *)
Definition isfinite (x : float) : bool :=
  match Prim2SF x with
  | S754_zero _ | S754_finite _ _ _ => true
  | _ => false
  end.

(** [integer_value x = Some z] when [x] is the integer [z]; a number
    [m * 2^e] with [e < 0] is one when [2^(-e)] divides [m]. *)
Definition integer_value (x : float) : option Z :=
  match Prim2SF x with
  | S754_zero _ => Some 0
  | S754_finite s m e =>
      if 0 <=? e then Some (signed s (Z.pos m * 2 ^ e))
      else if Z.pos m mod 2 ^ (- e) =? 0
           then Some (signed s (Z.pos m / 2 ^ (- e)))
           else None
  | _ => None
  end.

(** [z] is an integer nearest to the finite number [x], and the even one
    when [x] lies halfway between two integers. With [x = m * 2^e] and
    [e < 0] the distance is measured in units of [2^e]. *)
Definition nearest_even (x : float) (z : Z) : Prop :=
  match Prim2SF x with
  | S754_zero _ => z = 0
  | S754_finite s m e =>
      if 0 <=? e then z = signed s (Z.pos m * 2 ^ e)
      else
        let d := 2 ^ (- e) in
        let twice_error := Z.abs (2 * (z * d - signed s (Z.pos m))) in
        twice_error ≤ d ∧ (twice_error = d → Z.even z = true)
  | _ => False
  end.

(** [f <= g] on the numbers behind two floats. *)
Definition SFle (f g : spec_float) : Prop :=
  SFcompare f g = Some Lt ∨ SFcompare f g = Some Eq.

(** ** pandas: the position table *)

Module pd.

(** A row of the position table. [label] is the row's entry in the index of
    the frame: the frame is built with the default index [0 .. n-1], and
    sorting moves the rows together with their labels. *)
Record row : Set := Row {
  label : nat;
  original_object_order : nat;
  position_z : float;
  position_y : float;
  position_x : float
}.

Definition DataFrame : Set := list row.

Fixpoint frame_from (i : nat) (zs ys xs : list float) : DataFrame :=
  match zs, ys, xs with
  | z :: zs', y :: ys', x :: xs' =>
      Row i i z y x :: frame_from (S i) zs' ys' xs'
  | _, _, _ => []
  end.

(** [pd.DataFrame({"original_object_order": list(range(n)), "position_z":
    ..., "position_y": ..., "position_x": ...})]. *)
Definition frame (zs ys xs : list float) : DataFrame := frame_from 0 zs ys xs.

(** Order of two rows under [by=["position_z", "position_y",
    "position_x"]]: the first column on which they differ decides. *)
Definition compare_rows (r1 r2 : row) : comparison :=
  match np.compare (position_z r1) (position_z r2) with
  | Eq =>
      match np.compare (position_y r1) (position_y r2) with
      | Eq => np.compare (position_x r1) (position_x r2)
      | c => c
      end
  | c => c
  end.

(** The three positions of a row, the key of the sort. *)
Definition row_origin (r : row) : triple float :=
  Tuple3 (position_z r) (position_y r) (position_x r).

(** [df.sort_values(by=["position_z", "position_y", "position_x"])],
    ascending, stable on rows with the same three positions; the index is
    kept ([ignore_index] is not set), so each row keeps its label. *)
Definition sort_values (df : DataFrame) : DataFrame :=
  stable_sort compare_rows df.

(** [df.column.values]: the column in the order of the rows. *)
Definition values {A} (column : row → A) (df : DataFrame) : list A :=
  map column df.

(** [df.column[k]] with an integer [k]: the index of the frame holds
    integers, so the key is looked up among the labels and is not a
    position. [KeyError] when no row carries the label. *)
Definition getitem_label {A} (column : row → A) (df : DataFrame) (k : nat)
  : result A :=
  match List.find (λ r, Nat.eqb (label r) k) df with
  | Some r => Ok (column r)
  | None => Raise KeyError
  end.

End pd.

(** ** [ImageITKFileStack] *)

Module itk.

(** A 3 x 3 matrix by rows. *)
Definition matrix33 : Set := triple (triple float).

(** The metadata ITK reads from a slice file, in ITK's axis order (x, y, z). *)
Record ImageMetadata : Set := {
  GetOrigin : triple float;
  GetSpacing : triple float;
  GetDirection : matrix33;
  GetSize : triple nat
}.

(** A slice file whose metadata has been loaded. [file_metadata] is the
    attribute [image_metadata] of the file object; the stack has an
    attribute of that name too. *)
Record ImageITKFile : Set := {
  file_path : string;
  file_metadata : ImageMetadata
}.

(** The warning of line 69, with the array it prints. *)
Inductive UserWarning : Set :=
| InconsistentSliceDistance (distinct_spacing : list float).

(** The attributes of the stack that [complete] reads or writes.
    [image_metadata] is the stack's own metadata, read for the size. *)
Record ImageITKFileStack : Set := {
  image_file_objects : list ImageITKFile;
  image_metadata : ImageMetadata;
  image_origin : option (triple float);
  image_spacing : option (triple float);
  image_orientation : option matrix33;
  image_dimension : option (triple nat);
  slice_positions : option (list float)
}.

(** [np.ravel(m)]: the entries row by row. *)
Definition ravel (m : matrix33) : list float :=
  [ item0 (item0 m); item1 (item0 m); item2 (item0 m);
    item0 (item1 m); item1 (item1 m); item2 (item1 m);
    item0 (item2 m); item1 (item2 m); item2 (item2 m) ].

(** [np.reshape(a, [3, 3])]: nine entries are needed. *)
Definition reshape33 (a : list float) : result matrix33 :=
  match a with
  | [a0; a1; a2; a3; a4; a5; a6; a7; a8] =>
      Ok (Tuple3 (Tuple3 a0 a1 a2) (Tuple3 a3 a4 a5) (Tuple3 a6 a7 a8))
  | _ => Raise ValueError
  end.

(** [m[0, :] = v]. *)
Definition set_row0 (m : matrix33) (v : triple float) : matrix33 :=
  Tuple3 v (item1 m) (item2 m).

(** [v / c] on three entries. *)
Definition divide3 (v : triple float) (c : float) : triple float :=
  Tuple3 (item0 v / c)%float (item1 v / c)%float (item2 v / c)%float.

(** Lines 28-45: the origins of the slices, reversed to (z, y, x), in a
    frame sorted by position. *)
Definition position_table (objects : list ImageITKFile) : pd.DataFrame :=
  let slice_origin := map (λ o, reversed (GetOrigin (file_metadata o))) objects in
  pd.sort_values
    (pd.frame (map item0 slice_origin) (map item1 slice_origin)
       (map item2 slice_origin)).

(** Lines 48-51: [[objects[position_table.original_object_order[ii]] for ii
    in range(len(position_table))]]. *)
Definition sort_image_file_objects (objects : list ImageITKFile)
    (table : pd.DataFrame) : result (list ImageITKFile) :=
  mapM (M := result)
    (λ ii, k ← pd.getitem_label pd.original_object_order table ii;
           getitem objects k)
    (seq 0 (length table)).

(** Lines 57-60: the distance between the origins of consecutive rows of
    the table. *)
Definition slice_distances (table : pd.DataFrame) : list float :=
  np.sqrt
    (np.add
       (np.add (np.power2 (np.diff (pd.values pd.position_x table)))
               (np.power2 (np.diff (pd.values pd.position_y table))))
       (np.power2 (np.diff (pd.values pd.position_z table)))).

(** Line 79: the slice spacing, from the distances and their multipliers. *)
Definition mean_slice_spacing (distances multiplier : list float) : float :=
  np.around
    (np.mean (np.boolean_index distances (np.less_equal multiplier 1.2%float)))
    5.

(** Lines 82-86. *)
Definition stack_spacing (first_spacing : triple float) (slice_spacing : float)
  : triple float :=
  let image_spacing := reversed first_spacing in
  if (item0 image_spacing =? slice_spacing)%float
  then image_spacing
  else Tuple3 slice_spacing (item1 image_spacing) (item2 image_spacing).

(** Lines 93-97: (Zz, Zy, Zx) before the division. *)
Definition smallest_steps (table : pd.DataFrame) : result (triple float) :=
  dz ← np.min (np.diff (pd.values pd.position_z table));
  dy ← np.min (np.diff (pd.values pd.position_y table));
  dx ← np.min (np.diff (pd.values pd.position_x table));
  Ok (Tuple3 (np.around dz 5) (np.around dy 5) (np.around dx 5)).

(** Lines 27-106 of [complete]: everything between the loading of the
    metadata and the final check. The result is the updated stack and the
    warnings given on the way. *)
Definition assemble (self : ImageITKFileStack)
  : result (ImageITKFileStack * list UserWarning) :=
  let table := position_table (image_file_objects self) in
  objects ← sort_image_file_objects (image_file_objects self) table;
  first ← getitem objects 0;
  let origin := reversed (GetOrigin (file_metadata first)) in
  let image_slice_spacing := slice_distances table in
  min_slice_spacing ← np.min image_slice_spacing;
  let multiplier := np.divide image_slice_spacing min_slice_spacing in
  let irregular := np.any (np.greater multiplier 1.2%float) in
  let warnings :=
    if irregular
    then [InconsistentSliceDistance (np.unique image_slice_spacing)]
    else [] in
  let positions :=
    if irregular
    then Some (np.cumsum
                 (np.insert0 (map (λ d, np.around d 5) image_slice_spacing)
                    0%float))
    else slice_positions self in
  let slice_spacing := mean_slice_spacing image_slice_spacing multiplier in
  first' ← getitem objects 0;
  let spacing := stack_spacing (GetSpacing (file_metadata first')) slice_spacing in
  first'' ← getitem objects 0;
  orientation ← reshape33 (rev (ravel (GetDirection (file_metadata first''))));
  steps ← smallest_steps table;
  let z_orientation := divide3 steps slice_spacing in
  let size := reversed (GetSize (image_metadata self)) in
  Ok ({| image_file_objects := objects;
         image_metadata := image_metadata self;
         image_origin := Some origin;
         image_spacing := Some spacing;
         image_orientation := Some (set_row0 orientation z_orientation);
         image_dimension :=
           Some (Tuple3 (length table) (item1 size) (item2 size));
         slice_positions := positions |},
      warnings).

Section Complete.

(** [self.check(raise_error=True, remove_metadata=False)] is inherited
    from [ImageFileStack]; here it is any function that accepts the stack
    or raises. *)
Variable check : ImageITKFileStack → result unit.

(** [complete], for a stack whose slice metadata has been loaded
    ([load_metadata], [_complete_modality] and [_complete_sample_name] do
    not touch the attributes modelled here). *)
Definition complete (self : ImageITKFileStack)
  : result (ImageITKFileStack * list UserWarning) :=
  r ← assemble self;
  _ ← check r.1;
  Ok r.

End Complete.

End itk.

(** ** Image objects *)

Module images.

(** The class of an image object. A [CTImage] holds Hounsfield units; a
    [GenericImage] holds intensities on an arbitrary scale. *)
Inductive image_class : Set :=
| CTImage
| GenericImage.

(** The attributes of an image object: voxel data, the geometry of the
    stack it was read from and what was recorded about it on the way. *)
Record image : Set := Image {
  class : image_class;
  image_data : option (list float);
  image_origin : option (triple float);
  image_spacing : option (triple float);
  image_orientation : option itk.matrix33;
  image_dimension : option (triple nat);
  diagnostics : list string
}.

(** Objects live in a store; a reference is the identity of an object. *)
Abbreviation ref := nat (only parsing).
Abbreviation store := (gmap nat image) (only parsing).

Definition deref (r : ref) (h : store) : result image :=
  match h !! r with
  | Some o => Ok o
  | None => Raise KeyError
  end.

Definition set_image_data (d : option (list float)) (o : image) : image :=
  Image (class o) d (image_origin o) (image_spacing o) (image_orientation o)
    (image_dimension o) (diagnostics o).

(** The geometry of an image and what was recorded about it: the fields a
    copy from a template carries over. *)
Definition template_fields (o : image) :=
  (image_origin o, image_spacing o, image_orientation o, image_dimension o,
   diagnostics o).

(** The arguments of [normalise_intensities]. *)
Definition method : Set := option string.
Definition range : Set := option (float * float).
Definition mask : Set := option (list bool).

(** [normalisation_method is None or normalisation_method == "none"]. *)
Definition is_none (m : method) : bool :=
  match m with
  | None => true
  | Some s => bool_decide (s = "none")
  end.

End images.

(** *** [GenericImage] *)

Module generic_image.
Import images.

(** Modelled from the spec: the constructor of [GenericImage], whose class
    is not in the sources at hand. [GenericImage(image_data=d)] is a new
    object of the generic variant that holds [d]; its geometry is filled in
    afterwards by [update_from_template]. *)
Definition init (d : list float) (h : store) : ref * store :=
  let r := fresh (dom h) in
  (r, <[r := Image GenericImage (Some d) None None None None []]> h).

(** Modelled from the spec: [GenericImage.update_from_template], absent
    from the sources at hand; the field-by-field copy of origin, spacing,
    orientation and dimension and of the accumulated diagnostics from the
    template into [self]. Class and voxel data of [self] stay. *)
Definition update_from_template (self template : ref) (h : store)
  : result store :=
  t ← deref template h;
  o ← deref self h;
  Ok (<[self := Image (class o) (image_data o) (image_origin t)
                  (image_spacing t) (image_orientation t) (image_dimension t)
                  (diagnostics t)]> h).

(** Modelled from the spec: the set of recognised methods, which the spec
    gives as "none", "range", "relative_range" and "quantile_range"; no
    method at all counts as "none". *)
Definition recognised (m : method) : bool :=
  match m with
  | None => true
  | Some s =>
      bool_decide (s ∈ ["none"; "range"; "relative_range"; "quantile_range"])
  end.

(** A new object with the given voxel data and the geometry and
    diagnostics of [o], of the generic variant. *)
Definition transformed (d : list float) (o : image) (h : store)
  : ref * store :=
  let r := fresh (dom h) in
  (r, <[r := Image GenericImage (Some d) (image_origin o) (image_spacing o)
               (image_orientation o) (image_dimension o) (diagnostics o)]> h).

(** Modelled from the spec: [GenericImage.scale_intensities], absent from
    the sources at hand. Without voxel data, or with a scale of 1.0, the
    image itself is returned untouched; otherwise the result carries the
    voxel values times [scale] in a new object and the receiver is not
    changed. *)
Definition scale_intensities (scale : float) (self : ref) (h : store)
  : result (ref * store) :=
  o ← deref self h;
  match image_data o with
  | Some d =>
      if (scale =? 1)%float then Ok (self, h)
      else Ok (transformed (map (λ v, (v * scale)%float) d) o h)
  | None => Ok (self, h)
  end.

Section Transforms.

(** What a method does to the voxel values is not part of this
    development. *)
Variable normalise_voxels :
  string → range → range → mask → list float → list float.

(** Modelled from the spec: [GenericImage.normalise_intensities], absent
    from the sources at hand. A method outside the recognised set is an
    invalid configuration; without voxel data, or with no method or
    ["none"], the image itself is returned untouched; otherwise the result
    carries the transformed voxel data in a new object and the receiver is
    not changed. *)
Definition normalise_intensities (m : method) (intensity_range : range)
    (saturation_range : range) (msk : mask) (self : ref) (h : store)
  : result (ref * store) :=
  if negb (recognised m) then Raise ValueError
  else
    o ← deref self h;
    match image_data o, m with
    | Some d, Some s =>
        if is_none m then Ok (self, h)
        else
          Ok (transformed
                (normalise_voxels s intensity_range saturation_range msk d)
                o h)
    | _, _ => Ok (self, h)
    end.

End Transforms.

End generic_image.

(** *** [CTImage] *)

Module ct_image.
Import images.

Definition get_default_lowest_intensity : float := (-1000)%float.

(** [CTImage.update_image_data]: nothing without voxel data; otherwise the
    voxel values are rounded, so that they are Hounsfield units. *)
Definition update_image_data (self : ref) (h : store) : result store :=
  o ← deref self h;
  match image_data o with
  | None => Ok h
  | Some d => Ok (<[self := set_image_data (Some (np.round d)) o]> h)
  end.

Section Inherited.

(** [super().normalise_intensities] and [super().scale_intensities]: the
    methods of [GenericImage], called on [self]. They return a reference
    and may change the store. *)
Variable super_normalise_intensities :
  method → range → range → mask → ref → store → result (ref * store).
Variable super_scale_intensities : float → ref → store → result (ref * store).

(** The change of class, lines 46-47 and 63-64:
    [new_image = GenericImage(image_data=image.image_data)], then
    [new_image.update_from_template(template=image)]. *)
Definition as_generic_image (image : ref) (d : list float) (h : store)
  : result (ref * store) :=
  let '(new_image, h') := generic_image.init d h in
  h'' ← generic_image.update_from_template new_image image h';
  Ok (new_image, h'').

Definition normalise_intensities (normalisation_method : method)
    (intensity_range saturation_range : range) (msk : mask) (self : ref)
    (h : store) : result (ref * store) :=
  '(image, h') ← super_normalise_intensities normalisation_method
                   intensity_range saturation_range msk self h;
  t ← deref image h';
  match image_data t with
  | None => Ok (self, h')
  | Some d =>
      if is_none normalisation_method then Ok (self, h')
      else as_generic_image image d h'
  end.

Definition scale_intensities (scale : float) (self : ref) (h : store)
  : result (ref * store) :=
  '(image, h') ← super_scale_intensities scale self h;
  t ← deref image h';
  match image_data t with
  | None => Ok (self, h')
  | Some d =>
      if (scale =? 1)%float then Ok (self, h')
      else as_generic_image image d h'
  end.

End Inherited.

(** Modelled from the spec: the assignment of voxel data to an image,
    which belongs to [GenericImage] and is absent from the sources at
    hand; the data is stored and [update_image_data] of the object's class
    runs, which does nothing for a [GenericImage]. *)
Definition set_voxel_grid (d : list float) (self : ref) (h : store)
  : result store :=
  o ← deref self h;
  let h' := <[self := set_image_data (Some d) o]> h in
  match class o with
  | CTImage => update_image_data self h'
  | GenericImage => Ok h'
  end.

End ct_image.

(** ** The life of an image object *)

Module lifecycle.
Import images.

(** What can be done to an image object after it was made: voxel data is
    assigned to it, its integrity step runs, its intensities are normalised
    or scaled. *)
Inductive operation : Set :=
| SetVoxelGrid (d : list float)
| UpdateImageData
| NormaliseIntensities (m : method) (intensity_range saturation_range : range)
    (msk : mask)
| ScaleIntensities (scale : float).

Section Calls.

Variable normalise_voxels :
  string → range → range → mask → list float → list float.

(** A call of a method on the object [self], dispatched on its class as
    Python does: [CTImage] overrides [update_image_data],
    [normalise_intensities] and [scale_intensities] of [GenericImage]. The
    methods of [GenericImage] are the ones modelled from the spec. The
    image that a transform returns is the caller's; the store is what the
    call leaves behind. *)
Definition call (self : ref) (op : operation) (h : store) : result store :=
  o ← deref self h;
  match op, class o with
  | SetVoxelGrid d, _ => ct_image.set_voxel_grid d self h
  | UpdateImageData, CTImage => ct_image.update_image_data self h
  | UpdateImageData, GenericImage => Ok h
  | NormaliseIntensities m intensity_range saturation_range msk, CTImage =>
      snd <$> ct_image.normalise_intensities
                (generic_image.normalise_intensities normalise_voxels) m
                intensity_range saturation_range msk self h
  | NormaliseIntensities m intensity_range saturation_range msk,
    GenericImage =>
      snd <$> generic_image.normalise_intensities normalise_voxels m
                intensity_range saturation_range msk self h
  | ScaleIntensities scale, CTImage =>
      snd <$> ct_image.scale_intensities generic_image.scale_intensities
                scale self h
  | ScaleIntensities scale, GenericImage =>
      snd <$> generic_image.scale_intensities scale self h
  end.

(** A sequence of calls, each on an object of the store; the first call
    that raises ends it. *)
Fixpoint run (calls : list (ref * operation)) (h : store) : result store :=
  match calls with
  | [] => Ok h
  | (self, op) :: rest => h' ← call self op h; run rest h'
  end.

End Calls.

(** A voxel value is on the Hounsfield scale when it is a whole number, or
    no number at all. *)
Definition whole (v : float) : Prop :=
  isfinite v = true → is_Some (integer_value v).

(** [self] is a CT image on the Hounsfield scale. *)
Definition hounsfield (self : ref) (h : store) : Prop :=
  ∃ o, h !! self = Some o ∧ class o = CTImage ∧
       ∀ d, image_data o = Some d → Forall whole d.

End lifecycle.

(** ** Slice ordering and spacing in the words of the specification *)

Module resolver.
Import itk.

(** The origin of a slice in canonical (z, y, x) order. *)
Definition canonical_origin (o : ImageITKFile) : triple float :=
  reversed (GetOrigin (file_metadata o)).

(** Ascending on z, then y, then x. *)
Definition compare_origins (p q : triple float) : comparison :=
  match np.compare (item0 p) (item0 q) with
  | Eq =>
      match np.compare (item1 p) (item1 q) with
      | Eq => np.compare (item2 p) (item2 q)
      | c => c
      end
  | c => c
  end.

Definition compare_slices (a b : ImageITKFile) : comparison :=
  compare_origins (canonical_origin a) (canonical_origin b).

(** The slices, stable-sorted by their canonical origin. *)
Definition sorted_slices (objects : list ImageITKFile) : list ImageITKFile :=
  stable_sort compare_slices objects.

Definition sorted_origins (objects : list ImageITKFile) : list (triple float) :=
  canonical_origin <$> sorted_slices objects.

(** The Euclidean distance from the origin [p] to the origin [q]. *)
Definition euclidean_distance (p q : triple float) : float :=
  PrimFloat.sqrt
    ((item2 q - item2 p) * (item2 q - item2 p)
     + (item1 q - item1 p) * (item1 q - item1 p)
     + (item0 q - item0 p) * (item0 q - item0 p))%float.

Fixpoint consecutive {A B : Type} (f : A → A → B) (l : list A) : list B :=
  match l with
  | x :: (y :: _) as tl => f x y :: consecutive f tl
  | _ => []
  end.

(** The gaps: the distances between consecutive sorted origins. *)
Definition gaps (objects : list ImageITKFile) : list float :=
  consecutive euclidean_distance (sorted_origins objects).

Definition multiplier (min_spacing gap : float) : float :=
  (gap / min_spacing)%float.

(** A gap is regular when its multiplier is at most 1.2. *)
Definition regular (min_spacing gap : float) : bool :=
  (multiplier min_spacing gap <=? 1.2)%float.

Definition irregular (min_spacing gap : float) : bool :=
  (1.2 <? multiplier min_spacing gap)%float.

(** The mean of the regular gaps, rounded to 5 decimal places. *)
Definition resolved_spacing (min_spacing : float) (gaps : list float) : float :=
  np.around (np.mean (List.filter (regular min_spacing) gaps)) 5.

(** The smallest step between consecutive sorted origins along one axis. *)
Definition smallest_delta (axis : triple float → float)
    (origins : list (triple float)) : result float :=
  np.min (consecutive (λ p q, (axis q - axis p)%float) origins).

(** The direction matrix with its flattened entries reversed, as a 3 x 3
    matrix again. *)
Definition reversed_direction (m : matrix33) : matrix33 :=
  Tuple3 (reversed (item2 m)) (reversed (item1 m)) (reversed (item0 m)).

(** Rounding to 5 decimal places. *)
Definition round5 (x : float) : float := np.around x 5.

(** The orientation as the specification words it: the reversed direction
    matrix of the first sorted slice, its row 0 replaced by the smallest
    consecutive deltas along z, y and x divided by the resolved spacing. *)
Definition unrounded_orientation (objects : list ImageITKFile)
  : result matrix33 :=
  first ← getitem (sorted_slices objects) 0;
  m ← np.min (gaps objects);
  dz ← smallest_delta item0 (sorted_origins objects);
  dy ← smallest_delta item1 (sorted_origins objects);
  dx ← smallest_delta item2 (sorted_origins objects);
  Ok (set_row0 (reversed_direction (GetDirection (file_metadata first)))
        (divide3 (Tuple3 dz dy dx) (resolved_spacing m (gaps objects)))).

(** The spacing as the specification words it, from the first sorted
    slice. *)
Definition nominal_or_resolved (objects : list ImageITKFile)
  : result (triple float) :=
  first ← getitem (sorted_slices objects) 0;
  m ← np.min (gaps objects);
  let nominal := reversed (GetSpacing (file_metadata first)) in
  let resolved := resolved_spacing m (gaps objects) in
  Ok (if (item0 nominal =? resolved)%float then nominal
      else Tuple3 resolved (item1 nominal) (item2 nominal)).

End resolver.

(** ** Stacks and images to evaluate the definitions on *)

Module examples.
Import itk.
Local Open Scope float_scope.

Definition identity : matrix33 :=
  Tuple3 (Tuple3 1 0 0) (Tuple3 0 1 0) (Tuple3 0 0 1).

(** A slice file of 32 x 48 pixels at height [z], with its nominal spacing
    in ITK's (x, y, z) order. *)
Definition slice (name : string) (z : float) (spacing : triple float)
  : ImageITKFile :=
  {| file_path := name;
     file_metadata :=
       {| GetOrigin := Tuple3 0 0 z;
          GetSpacing := spacing;
          GetDirection := identity;
          GetSize := Tuple3 32%nat 48%nat 1%nat |} |}.

Definition unit_spacing : triple float := Tuple3 0.5 0.5 1.

(** A stack before [complete]: slices loaded, nothing assembled yet. *)
Definition stack (objects : list ImageITKFile) : ImageITKFileStack :=
  {| image_file_objects := objects;
     image_metadata := file_metadata (slice "stack" 0 unit_spacing);
     image_origin := None;
     image_spacing := None;
     image_orientation := None;
     image_dimension := None;
     slice_positions := None |}.

(** Three slices at z = 0, 1, 2, and the same with the last at z = 3. *)
Definition even_stack : ImageITKFileStack :=
  stack [slice "a" 0 unit_spacing; slice "b" 1 unit_spacing;
         slice "c" 2 unit_spacing].

Definition gapped_stack : ImageITKFileStack :=
  stack [slice "a" 0 unit_spacing; slice "b" 1 unit_spacing;
         slice "c" 3 unit_spacing].

Definition single_slice : ImageITKFileStack :=
  stack [slice "a" 0 unit_spacing].

(** Two slices given upper first; their nominal in-plane spacing differs. *)
Definition upper : ImageITKFile := slice "upper" 1 (Tuple3 0.5 0.5 1).
Definition lower : ImageITKFile := slice "lower" 0 (Tuple3 0.75 0.75 1).
Definition upper_first : ImageITKFileStack := stack [upper; lower].

(** Two slices 0.123456789 apart. *)
Definition fine_pair : ImageITKFileStack :=
  stack [slice "a" 0 unit_spacing; slice "b" 0.123456789 unit_spacing].

Definition accept (_ : ImageITKFileStack) : result unit := Ok ().

(** A CT image of four voxels with the geometry of [even_stack]. *)
Definition ct (d : option (list float)) : images.image :=
  images.Image images.CTImage d (Some (Tuple3 0 0 0)) (Some (Tuple3 1 0.5 0.5))
    (Some identity) (Some (Tuple3 1%nat 2%nat 2%nat)) ["interpolated"].

Definition one_ct (d : option (list float)) : images.store :=
  {[ 0%nat := ct d ]}.

(** A stand-in for what a normalisation method does to the voxels. *)
Definition halve (_ : string) (_ _ : images.range) (_ : images.mask)
    (d : list float)
  : list float :=
  map (λ v, v / 2) d.

End examples.

(** * Properties *)

(** ** The stable sort *)

Section SortFacts.
Context {A : Type} (cmp : A → A → comparison).

Lemma insert_by_Permutation (x : A) (l : list A) :
  insert_by cmp x l ≡ₚ x :: l.
Proof.
  induction l as [|y l IH]; simpl; [done|].
  destruct (cmp x y); try done.
  rewrite IH. apply Permutation_swap.
Qed.

Lemma stable_sort_Permutation (l : list A) : stable_sort cmp l ≡ₚ l.
Proof.
  induction l as [|x l IH]; simpl; [done|].
  by rewrite insert_by_Permutation, IH.
Qed.

Lemma stable_sort_length (l : list A) :
  length (stable_sort cmp l) = length l.
Proof. by rewrite stable_sort_Permutation. Qed.

(** Sorting by a key and then reading the keys is sorting the keys. *)
Lemma insert_by_map {B : Type} (f : B → A) (x : B) (l : list B) :
  f <$> insert_by (λ a b, cmp (f a) (f b)) x l = insert_by cmp (f x) (f <$> l).
Proof.
  induction l as [|y l IH]; csimpl; [done|].
  destruct (cmp (f x) (f y)); csimpl; by rewrite ?IH.
Qed.

Lemma stable_sort_map {B : Type} (f : B → A) (l : list B) :
  f <$> stable_sort (λ a b, cmp (f a) (f b)) l = stable_sort cmp (f <$> l).
Proof.
  induction l as [|x l IH]; csimpl; [done|].
  by rewrite insert_by_map, IH.
Qed.

(** Stability: an entry is never moved past one it is not above, so the
    entries selected by [P] keep their order as soon as they do not
    compare [Gt] among themselves. *)
Lemma insert_by_filter (P : A → bool) (x : A) (l : list A) :
  (∀ y, y ∈ l → P x = true → P y = true → cmp x y ≠ Gt) →
  List.filter P (insert_by cmp x l) = List.filter P (x :: l).
Proof.
  induction l as [|y l IH]; intros Hle; [done|].
  simpl. destruct (cmp x y) eqn:Hc; try done.
  assert (Hy : P x = true → P y = true → False).
  { intros ??. by apply (Hle y); [left|..]. }
  simpl. rewrite IH by (intros; apply Hle; [by right|done..]).
  simpl. destruct (P x), (P y); try done. exfalso; by apply Hy.
Qed.

Lemma stable_sort_filter (P : A → bool) (l : list A) :
  (∀ x y, x ∈ l → y ∈ l → P x = true → P y = true → cmp x y ≠ Gt) →
  List.filter P (stable_sort cmp l) = List.filter P l.
Proof.
  induction l as [|x l IH]; intros Hle; [done|].
  simpl stable_sort. rewrite insert_by_filter.
  - simpl. rewrite IH; [done|]. intros; apply Hle; by try right.
  - intros y Hy. apply Hle; [by left|].
    right. by rewrite <- (stable_sort_Permutation l).
Qed.

End SortFacts.

(** With an antisymmetric comparison the result is ascending. *)
Section Ascending.
Context {A : Type} (cmp : A → A → comparison).
Hypothesis cmp_antisym : ∀ a b, cmp b a = CompOpp (cmp a b).

Lemma insert_by_Sorted (x : A) (l : list A) :
  Sorted (λ a b, cmp a b ≠ Gt) l →
  Sorted (λ a b, cmp a b ≠ Gt) (insert_by cmp x l).
Proof.
  induction 1 as [|y l Hl IH Hhd]; simpl.
  - by repeat constructor.
  - destruct (cmp x y) eqn:Hxy.
    + constructor; [by constructor|]. constructor. by rewrite Hxy.
    + constructor; [by constructor|]. constructor. by rewrite Hxy.
    + constructor; [done|].
      destruct Hhd as [|z l Hyz]; simpl.
      * constructor. by rewrite cmp_antisym, Hxy.
      * destruct (cmp x z); constructor; try done;
          by rewrite cmp_antisym, Hxy.
Qed.

Lemma stable_sort_Sorted (l : list A) :
  Sorted (λ a b, cmp a b ≠ Gt) (stable_sort cmp l).
Proof.
  induction l as [|x l IH]; simpl; [constructor|by apply insert_by_Sorted].
Qed.

End Ascending.

(** ** Comparison of binary64 numbers *)

Lemma SFcompare_refl (f : spec_float) :
  f ≠ S754_nan → SFcompare f f = Some Eq.
Proof.
  destruct f as [s|s| |s m e]; simpl; try done.
  - by destruct s.
  - intros _. rewrite Z.compare_refl, Pos.compare_cont_refl. by destruct s.
Qed.

Lemma SFcompare_antisym (f g : spec_float) :
  SFcompare g f = CompOpp <$> SFcompare f g.
Proof.
  unfold fmap, option_fmap, option_map.
  destruct f as [s|s| |s m e], g as [s'|s'| |s' m' e']; simpl; try done;
    try (by destruct s); try (by destruct s'); try (by destruct s, s').
  rewrite (Z.compare_antisym e e').
  pose proof (Pos.compare_cont_antisym m m' Eq) as Hm. simpl in Hm.
  destruct s, s'; simpl; try done; destruct (e ?= e'); simpl; try done;
    rewrite <- Hm; by destruct (Pos.compare_cont Eq m m').
Qed.

Lemma is_nan_spec (x : float) :
  PrimFloat.is_nan x = true ↔ Prim2SF x = S754_nan.
Proof.
  unfold PrimFloat.is_nan. rewrite FloatAxioms.eqb_spec. unfold SFeqb. split.
  - destruct (Prim2SF x) eqn:E; try done;
      rewrite SFcompare_refl by done; done.
  - by intros ->.
Qed.

Lemma np_compare_refl (x : float) : np.compare x x = Eq.
Proof.
  unfold np.compare, np.isnan. destruct (PrimFloat.is_nan x) eqn:E; [done|].
  rewrite FloatAxioms.compare_spec, SFcompare_refl; [done|].
  intros H. apply is_nan_spec in H. congruence.
Qed.

Lemma np_compare_antisym (x y : float) :
  np.compare y x = CompOpp (np.compare x y).
Proof.
  unfold np.compare, np.isnan.
  destruct (PrimFloat.is_nan x) eqn:Ex, (PrimFloat.is_nan y) eqn:Ey; try done.
  rewrite !FloatAxioms.compare_spec,
    (SFcompare_antisym (Prim2SF x) (Prim2SF y)).
  destruct (SFcompare (Prim2SF x) (Prim2SF y)) as [[]|]; done.
Qed.

(** ** A number divided by itself *)

Lemma SF64div_self (f : spec_float) :
  SF64div f f = S754_nan ∨ SF64div f f = Prim2SF 1%float.
Proof.
  destruct f as [s|s| |s m e]; try (by left). right.
  unfold SF64div, SFdiv, SFdiv_core_binary.
  replace (Zdigits2 (Z.pos m) + e - (Zdigits2 (Z.pos m) + e)) with 0 by lia.
  replace (e - e) with 0 by lia.
  change (fexp prec emax 0 `min` 0) with (-53).
  change (0 - -53) with 53.
  cbv beta iota zeta.
  assert (Hd : Z.div_eucl (Z.pos m ≪ 53) (Z.pos m) = (2 ^ 53, 0)).
  { pose proof (Z.div_eucl_eq (Z.pos m ≪ 53) (Z.pos m)) as H.
    pose proof (Z.mod_pos_bound (Z.pos m ≪ 53) (Z.pos m)) as Hb.
    unfold Z.modulo, Z.div in *.
    destruct (Z.div_eucl (Z.pos m ≪ 53) (Z.pos m)) as [q r].
    rewrite Z.shiftl_mul_pow2 in H by lia.
    assert (q = 2 ^ 53 ∧ r = 0) as [-> ->]; [|done].
    specialize (H ltac:(lia)). specialize (Hb ltac:(lia)).
    assert (Z.pos m * (2 ^ 53 - q) = r) by lia.
    assert (2 ^ 53 - q = 0) by nia. split; lia. }
  change IntDef.Z.div_eucl with Z.div_eucl. rewrite Hd.
  replace (new_location (Z.pos m) 0) with loc_Exact.
  2:{ unfold new_location. by destruct (IntDef.Z.even _). }
  rewrite xorb_nilpotent. by vm_compute.
Qed.

(** Whatever [d] is, [d / d] is 1 or NaN, and neither is above 1.2. *)
Lemma div_self_not_above (d : float) : (1.2 <? d / d)%float = false.
Proof.
  rewrite ltb_spec, div_spec.
  destruct (SF64div_self (Prim2SF d)) as [-> | ->]; by vm_compute.
Qed.

(** ** Rounding to an integer *)

Lemma digits2_pos_bounds (p : positive) :
  2 ^ (Z.pos (digits2_pos p) - 1) ≤ Z.pos p < 2 ^ Z.pos (digits2_pos p).
Proof.
  induction p as [p IH|p IH|]; simpl digits2_pos; [| |by compute].
  all: rewrite Pos2Z.inj_succ; replace (Z.succ (Z.pos (digits2_pos p)) - 1)
         with (Z.succ (Z.pos (digits2_pos p) - 1)) by lia;
       rewrite !Z.pow_succ_r by lia; lia.
Qed.

Lemma digits2_pos_le (p : positive) (n : Z) :
  Z.pos p < 2 ^ n → Z.pos (digits2_pos p) ≤ n.
Proof.
  intros Hp. pose proof (digits2_pos_bounds p) as [Hlo _].
  destruct (Z.le_gt_cases (Z.pos (digits2_pos p)) n) as [|Hgt]; [done|].
  assert (2 ^ n ≤ 2 ^ (Z.pos (digits2_pos p) - 1)); [|lia].
  apply Z.pow_le_mono_r; lia.
Qed.

Lemma digits2_pos_shift (k p : positive) :
  digits2_pos (shift_pos k p) = (digits2_pos p + k)%positive.
Proof.
  unfold shift_pos. induction k as [|k IH] using Pos.peano_ind.
  - simpl. lia.
  - rewrite Pos.iter_succ. simpl. rewrite IH. lia.
Qed.

Lemma shift_pos_pow (k p : positive) :
  Z.pos (shift_pos k p) = Z.pos p * 2 ^ Z.pos k.
Proof.
  rewrite Zpower.shift_pos_correct.
  change (Zpow_def.Zpower_pos 2 k) with (2 ^ Z.pos k). lia.
Qed.

Lemma valid_mantissa_bound (s : bool) (m : positive) (e : Z) :
  valid_binary (S754_finite s m e) = true → Z.pos m < 2 ^ 53.
Proof.
  unfold SpecFloat.valid_binary, bounded, canonical_mantissa, fexp.
  intros [Hc _]%andb_prop. apply Z.eqb_eq in Hc.
  unfold SpecFloat.emin, prec, emax in Hc.
  pose proof (digits2_pos_bounds m) as [_ Hm].
  eapply Z.lt_le_trans; [exact Hm|].
  apply Z.pow_le_mono_r; lia.
Qed.

Lemma half_even_spec (m : positive) (e : Z) :
  e < 0 →
  let d := 2 ^ (- e) in
  let z := np.half_even m e in
  0 ≤ z ≤ Z.pos m / d + 1 ∧
  Z.abs (2 * (z * d - Z.pos m)) ≤ d ∧
  (Z.abs (2 * (z * d - Z.pos m)) = d → Z.even z = true).
Proof.
  intros He d z. subst z. unfold np.half_even. fold d.
  assert (Hd : 0 < d) by (apply Z.pow_pos_nonneg; lia).
  pose proof (Z.div_mod (Z.pos m) d ltac:(lia)) as Hdm.
  pose proof (Z.mod_pos_bound (Z.pos m) d Hd) as Hr.
  pose proof (Z.div_pos (Z.pos m) d ltac:(lia) Hd) as Hq.
  set (q := Z.pos m / d) in *. set (r := Z.pos m mod d) in *.
  destruct (Z.compare_spec (2 * r) d) as [Heq|Hlt|Hgt].
  - destruct (Z.even q) eqn:Hev.
    + split; [lia|]. split; [lia|done].
    + split; [lia|]. split; [lia|]. intros _.
      rewrite Z.even_add, Hev. done.
  - split; [lia|]. split; [lia|]. intros H. lia.
  - split; [lia|]. split; [lia|]. intros H. lia.
Qed.

Lemma of_integer_valid (s : bool) (z : Z) :
  0 ≤ z ≤ 2 ^ 52 → valid_binary (np.of_integer s z) = true.
Proof.
  intros Hz. destruct z as [|p|p]; [done| |lia].
  assert (Hp : Z.pos (digits2_pos p) ≤ 53) by (apply digits2_pos_le; lia).
  unfold np.of_integer.
  destruct (53 - Z.pos (digits2_pos p)) as [|k|k] eqn:Hk; [| |lia].
  - unfold SpecFloat.valid_binary, bounded, canonical_mantissa, fexp.
    apply andb_true_intro.
    split; [apply Z.eqb_eq|apply Z.leb_le];
      unfold SpecFloat.emin, emax, prec; lia.
  - unfold SpecFloat.valid_binary, bounded, canonical_mantissa, fexp.
    rewrite digits2_pos_shift.
    apply andb_true_intro.
    split; [apply Z.eqb_eq|apply Z.leb_le];
      unfold SpecFloat.emin, emax, prec; lia.
Qed.

Lemma of_integer_value (s : bool) (z : Z) :
  0 ≤ z ≤ 2 ^ 52 →
  integer_value (SF2Prim (np.of_integer s z)) = Some (signed s z).
Proof.
  intros Hz. unfold integer_value.
  rewrite Prim2SF_SF2Prim by by apply of_integer_valid.
  destruct z as [|p|p]; [by destruct s| |lia].
  unfold np.of_integer.
  destruct (53 - Z.pos (digits2_pos p)) as [|k|k] eqn:Hk.
  - simpl. do 2 f_equal. lia.
  - change (0 <=? Z.neg k) with false. cbv iota.
    change (- Z.neg k) with (Z.pos k).
    rewrite shift_pos_pow, Z.mod_mul, Z.div_mul by lia. done.
  - simpl. do 2 f_equal. lia.
Qed.

(** [np.rint] of a finite number is an integer, a nearest one, and the
    even one of two nearest. *)
Lemma rint_nearest_even (x : float) :
  isfinite x = true →
  ∃ z, integer_value (np.rint x) = Some z ∧ nearest_even x z.
Proof.
  unfold isfinite, np.rint, nearest_even. intros Hfin.
  pose proof (Prim2SF_valid x) as Hv.
  destruct (Prim2SF x) as [s|s| |s m e] eqn:E; try done.
  - exists 0. unfold integer_value. by rewrite E.
  - destruct (0 <=? e) eqn:He.
    + eexists. unfold integer_value. by rewrite E, He.
    + apply Z.leb_gt in He.
      pose proof (valid_mantissa_bound _ _ _ Hv) as Hm.
      destruct (half_even_spec m e He) as ([Hz0 Hz1] & Herr & Hev).
      assert (Hz : 0 ≤ np.half_even m e ≤ 2 ^ 52).
      { split; [done|]. etrans; [exact Hz1|].
        assert (Z.pos m / 2 ^ (- e) ≤ Z.pos m / 2 ^ 1).
        { apply Z.div_le_compat_l; [lia|]. split; [lia|].
          apply Z.pow_le_mono_r; lia. }
        assert (Z.pos m / 2 ^ 1 < 2 ^ 52); [|lia].
        apply Z.div_lt_upper_bound; lia. }
      exists (signed s (np.half_even m e)).
      split; [by apply of_integer_value|].
      destruct s; simpl signed.
      * replace (2 * (- np.half_even m e * 2 ^ (- e) - - Z.pos m))
          with (- (2 * (np.half_even m e * 2 ^ (- e) - Z.pos m))) by ring.
        rewrite Z.abs_opp, Z.even_opp. done.
      * done.
Qed.

(** NaN and the infinities pass through [np.rint]. *)
Lemma rint_not_finite (x : float) : isfinite x = false → np.rint x = x.
Proof.
  unfold isfinite, np.rint. by destruct (Prim2SF x).
Qed.

(** ** Summation *)

(** The fuel of [np.pairwise_sum] does not matter once it covers the
    length of the list, as it does in [np.sum]. *)
Lemma pairwise_sum_fuel (fuel fuel' : nat) (a : list float) :
  (length a ≤ fuel)%nat → (length a ≤ fuel')%nat →
  np.pairwise_sum fuel a = np.pairwise_sum fuel' a.
Proof.
  revert fuel' a. induction fuel as [|fuel IH]; intros fuel' a Hf Hf'.
  - destruct a; [|simpl in Hf; lia]. by destruct fuel'.
  - destruct fuel' as [|fuel'].
    { destruct a; [done|simpl in Hf'; lia]. }
    cbn [np.pairwise_sum]. destruct (length a <=? 128)%nat eqn:Hn; [done|].
    apply Nat.leb_gt in Hn.
    assert (Hhalf : (0 < length a / 2 - (length a / 2) mod 8 < length a)%nat).
    { pose proof (Nat.mod_upper_bound (length a / 2) 8).
      pose proof (Nat.div_lt (length a) 2).
      assert (64 ≤ length a / 2)%nat by (apply Nat.div_le_lower_bound; lia).
      lia. }
    f_equal; apply IH; rewrite ?length_take, ?length_drop; lia.
Qed.

(** ** The position table *)

Section PositionTable.
Import itk.

Lemma frame_from_length (i : nat) (zs ys xs : list float) :
  length ys = length zs → length xs = length zs →
  length (pd.frame_from i zs ys xs) = length zs.
Proof.
  revert i ys xs. induction zs as [|z zs IH]; intros i [|y ys] [|x xs];
    simpl; try done.
  intros ??. f_equal. apply IH; lia.
Qed.

Lemma frame_from_labels (i : nat) (zs ys xs : list float) :
  length ys = length zs → length xs = length zs →
  pd.label <$> pd.frame_from i zs ys xs = seq i (length zs).
Proof.
  revert i ys xs. induction zs as [|z zs IH]; intros i [|y ys] [|x xs];
    simpl; try done.
  intros ??. csimpl. f_equal. apply IH; lia.
Qed.

Lemma frame_from_order (i : nat) (zs ys xs : list float) :
  Forall (λ r, pd.original_object_order r = pd.label r)
    (pd.frame_from i zs ys xs).
Proof.
  revert i ys xs. induction zs as [|z zs IH]; intros i [|y ys] [|x xs];
    simpl; try done.
  constructor; [done|apply IH].
Qed.

(** The rows of the frame are the canonical origins, in the order of the
    objects. *)
Lemma frame_from_origins (i : nat) (origins : list (triple float)) :
  pd.row_origin <$> pd.frame_from i (map item0 origins) (map item1 origins)
                   (map item2 origins) = origins.
Proof.
  revert i. induction origins as [|[z y x] l IH]; intros i; [done|].
  csimpl. by rewrite IH.
Qed.

Lemma position_table_length (objects : list ImageITKFile) :
  length (position_table objects) = length objects.
Proof.
  unfold position_table, pd.sort_values, pd.frame.
  rewrite stable_sort_length, frame_from_length; by rewrite !length_map.
Qed.

Lemma position_table_labels (objects : list ImageITKFile) :
  pd.label <$> position_table objects ≡ₚ seq 0 (length objects).
Proof.
  unfold position_table, pd.sort_values, pd.frame.
  rewrite stable_sort_Permutation, frame_from_labels; by rewrite !length_map.
Qed.

Lemma position_table_order (objects : list ImageITKFile) :
  Forall (λ r, pd.original_object_order r = pd.label r)
    (position_table objects).
Proof.
  unfold position_table, pd.sort_values, pd.frame.
  rewrite stable_sort_Permutation. apply frame_from_order.
Qed.

(** The origins in the sorted table are the sorted origins of the
    specification. *)
Lemma position_table_origins (objects : list ImageITKFile) :
  pd.row_origin <$> position_table objects = resolver.sorted_origins objects.
Proof.
  unfold position_table, pd.sort_values, pd.frame, resolver.sorted_origins,
    resolver.sorted_slices.
  change pd.compare_rows
    with (λ a b, resolver.compare_origins (pd.row_origin a) (pd.row_origin b)).
  change resolver.compare_slices
    with (λ a b, resolver.compare_origins (resolver.canonical_origin a)
                   (resolver.canonical_origin b)).
  rewrite !stable_sort_map. f_equal.
  apply (frame_from_origins 0 (map resolver.canonical_origin objects)).
Qed.

(** A lookup by label in the column [original_object_order] returns the
    label: in every row the two agree. *)
Lemma getitem_label_order (table : pd.DataFrame) (k : nat) :
  Forall (λ r, pd.original_object_order r = pd.label r) table →
  k ∈ pd.label <$> table →
  pd.getitem_label pd.original_object_order table k = Ok k.
Proof.
  intros Hord Hk. unfold pd.getitem_label.
  destruct (find _ table) as [r|] eqn:Hf.
  - apply find_some in Hf as [Hin Heq]. apply Nat.eqb_eq in Heq.
    rewrite Forall_forall in Hord.
    apply list_elem_of_In in Hin. by rewrite (Hord r Hin), Heq.
  - apply list_elem_of_fmap in Hk as (r & -> & Hin).
    apply list_elem_of_In in Hin.
    apply (find_none _ _ Hf) in Hin. by rewrite Nat.eqb_refl in Hin.
Qed.

Lemma mapM_getitem {A : Type} (pre l : list A) :
  mapM (M := result) (getitem (pre ++ l)) (seq (length pre) (length l)) = Ok l.
Proof.
  revert pre. induction l as [|x l IH]; intros pre; [done|].
  specialize (IH (pre ++ [x])).
  rewrite <- app_assoc, length_app, Nat.add_1_r in IH.
  cbn [length seq mapM]. change (pre ++ [x] ++ l) with (pre ++ x :: l) in IH.
  rewrite IH. unfold getitem.
  rewrite lookup_app_r, Nat.sub_diag by lia. done.
Qed.

Lemma mapM_result_ext {A B : Type} (f g : A → result B) (l : list A) :
  (∀ x, x ∈ l → f x = g x) → mapM (M := result) f l = mapM g l.
Proof.
  induction l as [|x l IH]; intros Hfg; [done|].
  simpl. rewrite Hfg by left. rewrite IH; [done|].
  intros; apply Hfg; by right.
Qed.

(** Lines 48-51 give back the list in the order it was in: the table is
    sorted, but [original_object_order[ii]] is a lookup by label, and the
    row labelled [ii] is the row of object [ii]. *)
Lemma sort_image_file_objects_id (objects : list ImageITKFile) :
  sort_image_file_objects objects (position_table objects) = Ok objects.
Proof.
  unfold sort_image_file_objects. rewrite position_table_length.
  etrans; [|apply (mapM_getitem [] objects)]. simpl.
  apply mapM_result_ext. intros ii Hii.
  rewrite getitem_label_order; [done|apply position_table_order|].
  by rewrite position_table_labels.
Qed.

End PositionTable.

(** ** From the columns of the table to the gaps of the specification *)

Section Gaps.
Import itk.

Lemma slice_distances_consecutive (table : pd.DataFrame) :
  slice_distances table
  = resolver.consecutive resolver.euclidean_distance (pd.row_origin <$> table).
Proof.
  unfold slice_distances, pd.values.
  induction table as [|r [|r' tl] IH]; [done..|].
  change (resolver.consecutive resolver.euclidean_distance
            (pd.row_origin <$> r :: r' :: tl))
    with (resolver.euclidean_distance (pd.row_origin r) (pd.row_origin r')
          :: resolver.consecutive resolver.euclidean_distance
               (pd.row_origin <$> r' :: tl)).
  rewrite <- IH. done.
Qed.

Lemma diff_consecutive (axis : triple float → float) (column : pd.row → float)
    (table : pd.DataFrame) :
  (∀ r, column r = axis (pd.row_origin r)) →
  np.diff (pd.values column table)
  = resolver.consecutive (λ p q, (axis q - axis p)%float)
      (pd.row_origin <$> table).
Proof.
  intros Hcol. unfold pd.values.
  induction table as [|r [|r' tl] IH]; [done..|].
  change (np.diff (map column (r :: r' :: tl)))
    with ((column r' - column r)%float :: np.diff (map column (r' :: tl))).
  rewrite IH, !Hcol. done.
Qed.

Lemma consecutive_length {A B : Type} (f : A → A → B) (l : list A) :
  length (resolver.consecutive f l) = pred (length l).
Proof.
  induction l as [|x [|y tl] IH]; [done..|].
  change (length (resolver.consecutive f (x :: y :: tl)))
    with (S (length (resolver.consecutive f (y :: tl)))).
  by rewrite IH.
Qed.

Lemma min_nonempty (a : list float) :
  a ≠ [] → ∃ m, np.min a = Ok m.
Proof. destruct a; [done|]. by eexists. Qed.

Lemma min_consecutive {A : Type} (f : A → A → float) (l : list A) :
  (2 ≤ length l)%nat → ∃ m, np.min (resolver.consecutive f l) = Ok m.
Proof.
  intros Hl. apply min_nonempty. intros Hnil.
  apply (f_equal length) in Hnil. rewrite consecutive_length in Hnil.
  simpl in Hnil. lia.
Qed.

(** The mask [multiplier <= 1.2] selects the regular gaps, and
    [np.any(multiplier > 1.2)] asks for an irregular one. *)
Lemma boolean_index_regular (m : float) (a : list float) :
  np.boolean_index a (np.less_equal (np.divide a m) 1.2%float)
  = List.filter (resolver.regular m) a.
Proof.
  induction a as [|x a IH]; [done|].
  simpl. rewrite <- IH. done.
Qed.

Lemma any_greater_irregular (m : float) (a : list float) :
  np.any (np.greater (np.divide a m) 1.2%float)
  = existsb (resolver.irregular m) a.
Proof.
  induction a as [|x a IH]; [done|].
  simpl. rewrite <- IH. done.
Qed.

Lemma reshape33_reversed (m : matrix33) :
  reshape33 (rev (ravel m)) = Ok (resolver.reversed_direction m).
Proof. by destruct m as [[] [] []]. Qed.

Lemma sorted_origins_length (objects : list ImageITKFile) :
  length (resolver.sorted_origins objects) = length objects.
Proof.
  unfold resolver.sorted_origins, resolver.sorted_slices.
  by rewrite length_fmap, stable_sort_length.
Qed.

(** [assemble] in closed form, for a stack of at least two slices: the
    positions come from the sorted origins, everything else from the first
    object of the list as it was given. *)
Lemma assemble_eq (self : ImageITKFileStack) (first : ImageITKFile)
    (rest : list ImageITKFile) :
  image_file_objects self = first :: rest → rest ≠ [] →
  let origins := resolver.sorted_origins (first :: rest) in
  let gaps := resolver.gaps (first :: rest) in
  ∃ m dz dy dx,
    np.min gaps = Ok m ∧
    resolver.smallest_delta item0 origins = Ok dz ∧
    resolver.smallest_delta item1 origins = Ok dy ∧
    resolver.smallest_delta item2 origins = Ok dx ∧
    let irregular := existsb (resolver.irregular m) gaps in
    let spacing := resolver.resolved_spacing m gaps in
    assemble self
    = Ok ({| image_file_objects := first :: rest;
             image_metadata := image_metadata self;
             image_origin := Some (resolver.canonical_origin first);
             image_spacing :=
               Some (stack_spacing (GetSpacing (file_metadata first)) spacing);
             image_orientation :=
               Some (set_row0
                       (resolver.reversed_direction
                          (GetDirection (file_metadata first)))
                       (divide3
                          (Tuple3 (resolver.round5 dz) (resolver.round5 dy)
                             (resolver.round5 dx))
                          spacing));
             image_dimension :=
               Some (Tuple3 (length (first :: rest))
                       (item1 (reversed (GetSize (image_metadata self))))
                       (item2 (reversed (GetSize (image_metadata self)))));
             slice_positions :=
               if irregular
               then Some (np.cumsum (0%float :: map resolver.round5 gaps))
               else slice_positions self |},
          if irregular
          then [InconsistentSliceDistance (np.unique gaps)]
          else []).
Proof.
  intros Hobj Hrest origins gaps.
  subst gaps. unfold resolver.gaps. fold origins.
  assert (Hlen : (2 ≤ length origins)%nat).
  { unfold origins. rewrite sorted_origins_length. destruct rest; [done|].
    simpl; lia. }
  destruct (min_consecutive resolver.euclidean_distance origins Hlen)
    as [m Hm].
  destruct (min_consecutive (λ p q, (item0 q - item0 p)%float) origins Hlen)
    as [dz Hdz].
  destruct (min_consecutive (λ p q, (item1 q - item1 p)%float) origins Hlen)
    as [dy Hdy].
  destruct (min_consecutive (λ p q, (item2 q - item2 p)%float) origins Hlen)
    as [dx Hdx].
  exists m, dz, dy, dx. repeat (split; [done|]). cbv zeta.
  unfold assemble. rewrite Hobj, sort_image_file_objects_id.
  cbn [mbind result_bind getitem lookup list_lookup].
  rewrite slice_distances_consecutive, position_table_origins.
  fold origins. rewrite Hm. cbn [mbind result_bind].
  rewrite reshape33_reversed. cbn [mbind result_bind].
  unfold smallest_steps.
  rewrite (diff_consecutive item0 pd.position_z),
    (diff_consecutive item1 pd.position_y),
    (diff_consecutive item2 pd.position_x) by done.
  rewrite position_table_origins. fold origins.
  unfold resolver.smallest_delta in Hdz, Hdy, Hdx.
  rewrite Hdz, Hdy, Hdx. cbn [mbind result_bind].
  unfold mean_slice_spacing.
  rewrite boolean_index_regular, any_greater_irregular.
  rewrite position_table_length.
  done.
Qed.

End Gaps.

(** ** More on the order of binary64 numbers *)

Lemma ltb_not_leb (a b : float) :
  (a <? b)%float = true → (b <=? a)%float = false.
Proof.
  rewrite ltb_spec, leb_spec. unfold SFltb, SFleb.
  rewrite (SFcompare_antisym (Prim2SF a) (Prim2SF b)).
  by destruct (SFcompare (Prim2SF a) (Prim2SF b)) as [[]|].
Qed.

Lemma SFcompare_eq_trans (f g h : spec_float) :
  SFcompare f g = Some Eq → SFcompare g h = Some Eq →
  SFcompare f h = Some Eq.
Proof.
  destruct f as [s|s| |s m e], g as [s'|s'| |s' m' e'];
    try done; try (by destruct s); try (by destruct s').
  - destruct s, s'; try done; destruct h as [b|b| |b ? ?]; simpl; try done;
      by destruct b.
  - simpl. intros Hfg.
    assert (s = s' ∧ e = e' ∧ m = m') as (-> & -> & ->); [|done].
    destruct s, s'; try done; destruct (e ?= e') eqn:He; try done;
      apply Z.compare_eq in He;
      destruct (Pos.compare_cont Eq m m') eqn:Hm; try done;
      apply Pos.compare_eq in Hm; done.
Qed.

Lemma SFcompare_defined (f g : spec_float) :
  f ≠ S754_nan → g ≠ S754_nan → is_Some (SFcompare f g).
Proof. destruct f, g; simpl; by eauto. Qed.

Lemma np_compare_eq_trans (x y z : float) :
  np.compare x y = Eq → np.compare y z = Eq → np.compare x z = Eq.
Proof.
  unfold np.compare, np.isnan.
  destruct (PrimFloat.is_nan x) eqn:Ex, (PrimFloat.is_nan y) eqn:Ey,
    (PrimFloat.is_nan z) eqn:Ez; try done.
  rewrite !FloatAxioms.compare_spec.
  assert (Hn : ∀ v, PrimFloat.is_nan v = false → Prim2SF v ≠ S754_nan).
  { intros v Hv Hnan. apply is_nan_spec in Hnan. congruence. }
  destruct (SFcompare_defined _ _ (Hn x Ex) (Hn y Ey)) as [c Hxy].
  destruct (SFcompare_defined _ _ (Hn y Ey) (Hn z Ez)) as [c' Hyz].
  rewrite Hxy, Hyz. destruct c, c'; try done. intros _ _.
  by rewrite (SFcompare_eq_trans _ _ _ Hxy Hyz).
Qed.

(** The order is transitive. *)
Ltac cases_compare :=
  repeat match goal with
  | H : context [PosDef.Pos.compare_cont Eq ?a ?b] |- _ =>
      change (PosDef.Pos.compare_cont Eq a b) with (Pos.compare a b) in H
  | |- context [PosDef.Pos.compare_cont Eq ?a ?b] =>
      change (PosDef.Pos.compare_cont Eq a b) with (Pos.compare a b)
  end;
  repeat match goal with
  | H : context [(?a ?= ?b)%Z] |- _ =>
      destruct (Z.compare_spec a b); simpl in H
  | H : context [(?a ?= ?b)%positive] |- _ =>
      destruct (Pos.compare_spec a b); simpl in H
  | |- context [(?a ?= ?b)%Z] => destruct (Z.compare_spec a b); simpl
  | |- context [(?a ?= ?b)%positive] =>
      destruct (Pos.compare_spec a b); simpl
  end.

Lemma SFle_trans (f g h : spec_float) : SFle f g → SFle g h → SFle f h.
Proof.
  unfold SFle.
  destruct f as [s|s| |s m e], g as [s'|s'| |s' m' e'],
    h as [s''|s''| |s'' m'' e''];
    simpl; try (intros [|] [|]; discriminate); try tauto;
    try (destruct s; simpl; tauto); try (destruct s'; simpl; tauto);
    try (destruct s''; simpl; tauto);
    try (destruct s, s'; simpl; tauto); try (destruct s, s''; simpl; tauto);
    try (destruct s', s''; simpl; tauto);
    try (destruct s, s', s''; simpl; tauto).
  all: destruct s, s', s''; simpl; try tauto;
    try (intros [|] [|]; discriminate).
  all: intros H1 H2; cases_compare; subst; try lia; try tauto;
    try (destruct H1; discriminate); try (destruct H2; discriminate).
Qed.

Lemma np_compare_SFle (x y : float) :
  PrimFloat.is_nan x = false → PrimFloat.is_nan y = false →
  np.compare x y ≠ Gt ↔ SFle (Prim2SF x) (Prim2SF y).
Proof.
  intros Ex Ey. unfold np.compare, np.isnan, SFle. rewrite Ex, Ey.
  rewrite FloatAxioms.compare_spec.
  assert (Hn : ∀ v, PrimFloat.is_nan v = false → Prim2SF v ≠ S754_nan).
  { intros v Hv Hnan. apply is_nan_spec in Hnan. congruence. }
  destruct (SFcompare_defined _ _ (Hn x Ex) (Hn y Ey)) as [c ->].
  destruct c; simpl; split; try done; try tauto; by intros [|].
Qed.

Lemma np_compare_trans (x y z : float) :
  np.compare x y ≠ Gt → np.compare y z ≠ Gt → np.compare x z ≠ Gt.
Proof.
  destruct (PrimFloat.is_nan x) eqn:Ex, (PrimFloat.is_nan y) eqn:Ey,
    (PrimFloat.is_nan z) eqn:Ez;
    try (unfold np.compare, np.isnan; rewrite ?Ex, ?Ey, ?Ez; done).
  rewrite !np_compare_SFle by done. apply SFle_trans.
Qed.

(** What follows from antisymmetry and transitivity alone. *)
Section Preorder.
Context {A : Type} (cmp : A → A → comparison).
Hypothesis cmp_antisym : ∀ a b, cmp b a = CompOpp (cmp a b).
Hypothesis cmp_trans : ∀ a b c, cmp a b ≠ Gt → cmp b c ≠ Gt → cmp a c ≠ Gt.

Lemma cmp_lt_le (a b c : A) : cmp a b = Lt → cmp b c ≠ Gt → cmp a c = Lt.
Proof.
  intros Hab Hbc. destruct (cmp a c) eqn:Hac; [|done|].
  - exfalso. apply (cmp_trans b c a); [done|by rewrite cmp_antisym, Hac|].
    by rewrite cmp_antisym, Hab.
  - exfalso. apply (cmp_trans a b c); [by rewrite Hab|done..].
Qed.

Lemma cmp_le_lt (a b c : A) : cmp a b ≠ Gt → cmp b c = Lt → cmp a c = Lt.
Proof.
  intros Hab Hbc. destruct (cmp a c) eqn:Hac; [|done|].
  - exfalso. apply (cmp_trans c a b); [by rewrite cmp_antisym, Hac|done|].
    by rewrite cmp_antisym, Hbc.
  - exfalso. apply (cmp_trans a b c); [done|by rewrite Hbc|done].
Qed.

Lemma cmp_lt_trans (a b c : A) : cmp a b = Lt → cmp b c = Lt → cmp a c = Lt.
Proof. intros Hab Hbc. apply (cmp_lt_le a b c); [done|by rewrite Hbc]. Qed.

Lemma stable_sort_StronglySorted (l : list A) :
  StronglySorted (λ a b, cmp a b ≠ Gt) (stable_sort cmp l).
Proof.
  apply Sorted_StronglySorted; [|by apply stable_sort_Sorted].
  intros a b c. apply cmp_trans.
Qed.

(** Two ascending arrangements of the same entries are the same list, if
    entries that compare equal are equal. *)
Lemma ascending_unique (l1 l2 : list A) :
  (∀ x y, x ∈ l1 → y ∈ l1 → cmp x y = Eq → x = y) →
  l1 ≡ₚ l2 →
  StronglySorted (λ a b, cmp a b ≠ Gt) l1 →
  StronglySorted (λ a b, cmp a b ≠ Gt) l2 →
  l1 = l2.
Proof.
  intros Heq Hperm Hs1. revert l2 Hperm.
  induction Hs1 as [|x l1 Hs1 IH Hx]; intros l2 Hperm Hs2.
  - by apply Permutation_nil_l in Hperm.
  - destruct Hs2 as [|y l2 Hs2 Hy].
    { by apply Permutation_nil_r in Hperm. }
    rewrite Forall_forall in Hx, Hy.
    assert (Hrefl : ∀ a, cmp a a ≠ Gt).
    { intros a Ha. pose proof (cmp_antisym a a) as H. rewrite Ha in H.
      done. }
    assert (Hxy : cmp x y ≠ Gt).
    { assert (y ∈ x :: l1) as [->|Hin]%elem_of_cons
        by (rewrite Hperm; left); [apply Hrefl|by apply Hx]. }
    assert (Hyx : cmp y x ≠ Gt).
    { assert (x ∈ y :: l2) as [->|Hin]%elem_of_cons
        by (rewrite <- Hperm; left); [apply Hrefl|by apply Hy]. }
    assert (x = y) as <-.
    { apply Heq; [left|rewrite Hperm; left|].
      rewrite cmp_antisym in Hyx. by destruct (cmp x y). }
    f_equal. apply IH; [|by apply Permutation_cons_inv in Hperm|done].
    intros a b Ha Hb. apply Heq; by right.
Qed.

End Preorder.

(** ** [np.unique] *)

Lemma drop_repeats_observed (a : list float) (v : float) :
  v ∈ np.drop_repeats a → v ∈ a.
Proof.
  induction a as [|x [|y tl] IH]; [done..|].
  change (np.drop_repeats (x :: y :: tl))
    with (match np.compare x y with
          | Eq => np.drop_repeats (y :: tl)
          | _ => x :: np.drop_repeats (y :: tl)
          end).
  destruct (np.compare x y); rewrite !(elem_of_cons _ v x); tauto.
Qed.

Lemma drop_repeats_represents (a : list float) (g : float) :
  g ∈ a → ∃ v, v ∈ np.drop_repeats a ∧ np.compare g v = Eq.
Proof.
  revert g. induction a as [|x [|y tl] IH]; intros g;
    [by intros ?%elem_of_nil| |].
  - intros ->%list_elem_of_singleton. exists x.
    split; [by left|apply np_compare_refl].
  - change (np.drop_repeats (x :: y :: tl))
      with (match np.compare x y with
            | Eq => np.drop_repeats (y :: tl)
            | _ => x :: np.drop_repeats (y :: tl)
            end).
    intros [->|Hin]%elem_of_cons.
    + destruct (np.compare x y) eqn:Hxy.
      * destruct (IH y) as (v & Hv & Hyv); [by left|].
        exists v. split; [done|]. by eapply np_compare_eq_trans.
      * exists x. split; [by left|apply np_compare_refl].
      * exists x. split; [by left|apply np_compare_refl].
    + destruct (IH g Hin) as (v & Hv & Hgv). exists v.
      split; [|done]. destruct (np.compare x y); [done|by right..].
Qed.

Lemma drop_repeats_head (x : float) (tl : list float) :
  ∃ y tl', np.drop_repeats (x :: tl) = y :: tl' ∧ np.compare x y = Eq.
Proof.
  revert x. induction tl as [|y tl IH]; intros x.
  - exists x, []. split; [done|apply np_compare_refl].
  - change (np.drop_repeats (x :: y :: tl))
      with (match np.compare x y with
            | Eq => np.drop_repeats (y :: tl)
            | _ => x :: np.drop_repeats (y :: tl)
            end).
    destruct (np.compare x y) eqn:Hxy.
    + destruct (IH y) as (z & tl' & -> & Hyz). exists z, tl'.
      split; [done|]. by eapply np_compare_eq_trans.
    + eexists _, _. split; [done|apply np_compare_refl].
    + eexists _, _. split; [done|apply np_compare_refl].
Qed.

Lemma drop_repeats_ascending (a : list float) :
  Sorted (λ u v, np.compare u v ≠ Gt) a →
  Sorted (λ u v, np.compare u v = Lt) (np.drop_repeats a).
Proof.
  induction 1 as [|x [|y tl] Hs IH Hhd]; [constructor|by repeat constructor|].
  change (np.drop_repeats (x :: y :: tl))
    with (match np.compare x y with
          | Eq => np.drop_repeats (y :: tl)
          | _ => x :: np.drop_repeats (y :: tl)
          end).
  apply HdRel_inv in Hhd.
  destruct (np.compare x y) eqn:Hxy; [done| |done].
  constructor; [done|].
  destruct (drop_repeats_head y tl) as (z & tl' & -> & Hyz).
  constructor.
  apply (cmp_lt_le np.compare np_compare_antisym np_compare_trans x y z);
    [done|by rewrite Hyz].
Qed.

(** The values [np.unique] lists are strictly ascending, so no two of them
    are equal; they are values of the array, and each value of the array
    is listed, up to the equality of numbers. *)
Lemma unique_ascending (a : list float) :
  StronglySorted (λ u v, np.compare u v = Lt) (np.unique a).
Proof.
  apply Sorted_StronglySorted.
  - intros u v w.
    apply (cmp_lt_trans np.compare np_compare_antisym np_compare_trans).
  - apply drop_repeats_ascending, stable_sort_Sorted, np_compare_antisym.
Qed.

Lemma unique_observed (a : list float) (v : float) :
  v ∈ np.unique a → v ∈ a.
Proof.
  intros Hv%drop_repeats_observed. unfold np.sort in Hv.
  by rewrite stable_sort_Permutation in Hv.
Qed.

Lemma unique_represents (a : list float) (g : float) :
  g ∈ a → ∃ v, v ∈ np.unique a ∧ np.compare g v = Eq.
Proof.
  intros Hg. apply drop_repeats_represents. unfold np.sort.
  by rewrite stable_sort_Permutation.
Qed.

(** ** The sort is ascending and stable *)


Lemma compare_origins_antisym (p q : triple float) :
  resolver.compare_origins q p = CompOpp (resolver.compare_origins p q).
Proof.
  unfold resolver.compare_origins.
  rewrite (np_compare_antisym (item0 p) (item0 q)),
    (np_compare_antisym (item1 p) (item1 q)),
    (np_compare_antisym (item2 p) (item2 q)).
  destruct (np.compare (item0 p) (item0 q)); try done.
  by destruct (np.compare (item1 p) (item1 q)).
Qed.

Lemma compare_origins_refl (p : triple float) :
  resolver.compare_origins p p = Eq.
Proof.
  unfold resolver.compare_origins. by rewrite !np_compare_refl.
Qed.

Lemma lexicographic_step (a b c : float) (k_ab k_bc k_ac : comparison) :
  (k_ab ≠ Gt → k_bc ≠ Gt → k_ac ≠ Gt) →
  match np.compare a b with Eq => k_ab | o => o end ≠ Gt →
  match np.compare b c with Eq => k_bc | o => o end ≠ Gt →
  match np.compare a c with Eq => k_ac | o => o end ≠ Gt.
Proof.
  intros Hk.
  destruct (np.compare a b) eqn:Hab, (np.compare b c) eqn:Hbc; try done.
  - by rewrite (np_compare_eq_trans a b c).
  - by rewrite (cmp_le_lt np.compare np_compare_antisym np_compare_trans a b c)
      by (done || by rewrite Hab).
  - by rewrite (cmp_lt_le np.compare np_compare_antisym np_compare_trans a b c)
      by (done || by rewrite Hbc).
  - by rewrite (cmp_lt_trans np.compare np_compare_antisym np_compare_trans
                  a b c).
Qed.

Lemma compare_origins_trans (p q r : triple float) :
  resolver.compare_origins p q ≠ Gt → resolver.compare_origins q r ≠ Gt →
  resolver.compare_origins p r ≠ Gt.
Proof.
  unfold resolver.compare_origins.
  apply lexicographic_step, lexicographic_step, np_compare_trans.
Qed.

(** The specification's sort of the slices: a permutation of the slices,
    ascending on (z, y, x), slices with one and the same origin in the
    order in which they were given. *)
Lemma sorted_slices_Permutation (objects : list itk.ImageITKFile) :
  resolver.sorted_slices objects ≡ₚ objects.
Proof. apply stable_sort_Permutation. Qed.

Lemma sorted_slices_ascending (objects : list itk.ImageITKFile) :
  Sorted (λ a b, resolver.compare_slices a b ≠ Gt)
    (resolver.sorted_slices objects).
Proof.
  apply stable_sort_Sorted. intros a b. apply compare_origins_antisym.
Qed.

Lemma sorted_slices_stable (objects : list itk.ImageITKFile)
    (P : itk.ImageITKFile → bool) (p : triple float) :
  (∀ o, P o = true → resolver.canonical_origin o = p) →
  List.filter P (resolver.sorted_slices objects) = List.filter P objects.
Proof.
  intros HP. apply stable_sort_filter. intros x y _ _ Hx Hy.
  unfold resolver.compare_slices.
  by rewrite (HP x Hx), (HP y Hy), compare_origins_refl.
Qed.

(** Every slice is at or above the slices before it in sorted order. *)
Lemma sorted_slices_strongly_ascending (objects : list itk.ImageITKFile) :
  StronglySorted (λ a b, resolver.compare_slices a b ≠ Gt)
    (resolver.sorted_slices objects).
Proof.
  apply stable_sort_StronglySorted.
  - intros a b. apply compare_origins_antisym.
  - intros a b c. apply compare_origins_trans.
Qed.

(** Slices with distinct origins come out in one and the same order,
    whatever the order in which they are given. *)
Lemma sorted_slices_of_permutation (objects objects' : list itk.ImageITKFile) :
  (∀ a b, a ∈ objects → b ∈ objects →
          resolver.compare_slices a b = Eq → a = b) →
  objects ≡ₚ objects' →
  resolver.sorted_slices objects = resolver.sorted_slices objects'.
Proof.
  intros Hdistinct Hperm.
  apply (ascending_unique resolver.compare_slices).
  - intros a b. apply compare_origins_antisym.
  - intros a b Ha Hb. rewrite sorted_slices_Permutation in Ha, Hb.
    by apply Hdistinct.
  - by rewrite !sorted_slices_Permutation.
  - apply sorted_slices_strongly_ascending.
  - apply sorted_slices_strongly_ascending.
Qed.

(** The positions in the table are ascending too. *)
Lemma position_table_ascending (objects : list itk.ImageITKFile) :
  Sorted (λ p q, resolver.compare_origins p q ≠ Gt)
    (pd.row_origin <$> itk.position_table objects).
Proof.
  rewrite position_table_origins. unfold resolver.sorted_origins.
  pose proof (sorted_slices_ascending objects) as Hs.
  induction Hs as [|a l Hl IH Hhd]; csimpl; constructor; [done|].
  destruct Hhd; csimpl; by constructor.
Qed.

(** ** [ImageITKFileStack.complete] *)

Section Assemble.
Import itk.

Lemma two_slices {A : Type} (l : list A) :
  (2 ≤ length l)%nat → ∃ first rest, l = first :: rest ∧ rest ≠ [].
Proof.
  destruct l as [|first [|second rest]]; simpl; try lia.
  intros _. by exists first, (second :: rest).
Qed.

(** A stack of one slice: there is no distance to take the minimum of. *)
Lemma assemble_single (self : ImageITKFileStack) (o : ImageITKFile) :
  image_file_objects self = [o] → assemble self = Raise ValueError.
Proof. intros Hobj. unfold assemble. by rewrite Hobj. Qed.

Lemma assemble_empty (self : ImageITKFileStack) :
  image_file_objects self = [] → assemble self = Raise IndexError.
Proof. intros Hobj. unfold assemble. by rewrite Hobj. Qed.

(** Whenever [assemble] returns, the file objects are in the order in which
    they were given. *)
Lemma assemble_keeps_given_order (self st : ImageITKFileStack)
    (warnings : list UserWarning) :
  assemble self = Ok (st, warnings) →
  image_file_objects st = image_file_objects self.
Proof.
  destruct (image_file_objects self) as [|first [|second rest]] eqn:Hobj.
  - by rewrite (assemble_empty self Hobj).
  - by rewrite (assemble_single self first Hobj).
  - destruct (assemble_eq self first (second :: rest) Hobj)
      as (m & dz & dy & dx & _ & _ & _ & _ & ->); [done|].
    by intros [= <- _].
Qed.

Lemma complete_eq (check : ImageITKFileStack → result unit)
    (self st : ImageITKFileStack) (warnings : list UserWarning) :
  assemble self = Ok (st, warnings) → check st = Ok () →
  complete check self = Ok (st, warnings).
Proof.
  intros Ha Hc. unfold complete. rewrite Ha. simpl. by rewrite Hc.
Qed.

Lemma complete_raises (check : ImageITKFileStack → result unit)
    (self : ImageITKFileStack) (e : exn) :
  assemble self = Raise e → complete check self = Raise e.
Proof. unfold complete. by intros ->. Qed.

Lemma min_all_equal (a : list float) (m : float) :
  np.min a = Ok m → (∀ g g', g ∈ a → g' ∈ a → g = g') →
  ∀ g, g ∈ a → g = m.
Proof.
  destruct a as [|x tl]; [done|]. intros [= <-] Heq.
  assert (Htl : ∀ g, g ∈ tl → g = x).
  { intros g Hg. apply Heq; [by right|by left]. }
  assert (Hm : foldl np.minimum x tl = x).
  { clear Heq. induction tl as [|y tl IH]; [done|]. simpl.
    rewrite (Htl y) by left. unfold np.minimum at 2.
    destruct (_ || _); apply IH; intros; apply Htl; by right. }
  rewrite Hm. intros g Hg. apply Heq; [done|by left].
Qed.

(** C1. For a stack of at least two slices, assembly returns, and so does
    [complete] if the final check accepts the result; there is a smallest
    gap [m] between consecutive sorted origins, and the z-spacing
    of the assembled stack is the mean of the gaps whose multiplier
    [gap / m] is at most 1.2, rounded to 5 decimal places: it is that
    number, or the first slice's nominal z-spacing when the two compare
    equal. A gap whose multiplier is above 1.2 is not among the gaps the
    mean is taken of. *)
Theorem resolved_spacing_is_mean_of_regular_gaps
    (check : ImageITKFileStack → result unit) (self : ImageITKFileStack) :
  (2 ≤ length (image_file_objects self))%nat →
  let gaps := resolver.gaps (image_file_objects self) in
  ∃ st warnings m spacing,
    assemble self = Ok (st, warnings) ∧
    (check st = Ok () → complete check self = Ok (st, warnings)) ∧
    np.min gaps = Ok m ∧
    image_spacing st = Some spacing ∧
    (item0 spacing = resolver.resolved_spacing m gaps
     ∨ (item0 spacing =? resolver.resolved_spacing m gaps)%float = true) ∧
    ∀ g, resolver.irregular m g = true →
         g ∉ List.filter (resolver.regular m) gaps.
Proof.
  intros (first & rest & Hobj & Hrest)%two_slices gaps. subst gaps.
  rewrite Hobj.
  destruct (assemble_eq self first rest Hobj Hrest)
    as (m & dz & dy & dx & Hm & _ & _ & _ & Heq).
  eexists _, _, m, _. split; [exact Heq|].
  split; [by apply complete_eq|]. split; [exact Hm|].
  split; [done|]. split.
  - unfold stack_spacing.
    destruct (_ =? _)%float eqn:Hsame; [by right|by left].
  - intros g Hg Hin. apply list_elem_of_In, filter_In in Hin as [_ Hreg].
    unfold resolver.irregular in Hg. unfold resolver.regular in Hreg.
    apply ltb_not_leb in Hg. congruence.
Qed.

(** C1, on three slices at z = 0, 1, 3. *)
Lemma resolved_spacing_of_gapped_stack :
  (2 ≤ length (image_file_objects examples.gapped_stack))%nat ∧
  ∃ st warnings m spacing,
    complete examples.accept examples.gapped_stack = Ok (st, warnings) ∧
    np.min (resolver.gaps (image_file_objects examples.gapped_stack)) = Ok m ∧
    image_spacing st = Some spacing ∧
    (item0 spacing
     = resolver.resolved_spacing m
         (resolver.gaps (image_file_objects examples.gapped_stack))
     ∨ (item0 spacing
        =? resolver.resolved_spacing m
             (resolver.gaps (image_file_objects examples.gapped_stack)))%float
       = true) ∧
    ∀ g, resolver.irregular m g = true →
         g ∉ List.filter (resolver.regular m)
               (resolver.gaps (image_file_objects examples.gapped_stack)).
Proof.
  assert (H : (2 ≤ length (image_file_objects examples.gapped_stack))%nat)
    by (simpl; lia).
  split; [exact H|].
  destruct (resolved_spacing_is_mean_of_regular_gaps examples.accept
              examples.gapped_stack H)
    as (st & warnings & m & spacing & _ & Hcomplete & Hrest).
  exists st, warnings, m, spacing. split; [by apply Hcomplete|exact Hrest].
Defined.

(** C2. Two slices given upper first come back from assembly upper first,
    although sorting by origin puts the lower one first. *)
Theorem upper_first_is_not_reordered :
  ∃ st warnings,
    assemble examples.upper_first = Ok (st, warnings) ∧
    image_file_objects st = [examples.upper; examples.lower] ∧
    resolver.sorted_slices (image_file_objects examples.upper_first)
    = [examples.lower; examples.upper].
Proof. eexists _, _. split; [by vm_compute|]. split; by vm_compute. Qed.

(** C3. For a stack of at least two slices assembly returns, and so does
    [complete] if the final check accepts the result. Either some gap has
    a multiplier above 1.2, and then exactly one warning is given, with the
    distinct gaps [np.unique gaps], and [slice_positions] is set to the
    cumulative sum of 0.0 followed by the gaps rounded to 5 decimals; or no
    gap has, and then no warning is given and [slice_positions] is left as
    it was. The second case holds whenever all gaps are equal. The values
    in [np.unique gaps] are strictly ascending, they are gaps, and every
    gap is equal to one of them. *)
Theorem irregular_spacing_warning
    (check : ImageITKFileStack → result unit) (self : ImageITKFileStack) :
  (2 ≤ length (image_file_objects self))%nat →
  let gaps := resolver.gaps (image_file_objects self) in
  ∃ st warnings m,
    assemble self = Ok (st, warnings) ∧
    (check st = Ok () → complete check self = Ok (st, warnings)) ∧
    np.min gaps = Ok m ∧
    (((∃ g, g ∈ gaps ∧ resolver.irregular m g = true) ∧
      warnings = [InconsistentSliceDistance (np.unique gaps)] ∧
      slice_positions st
      = Some (np.cumsum (0%float :: map resolver.round5 gaps)))
     ∨ ((∀ g, g ∈ gaps → resolver.irregular m g = false) ∧
        warnings = [] ∧
        slice_positions st = slice_positions self)) ∧
    ((∀ g g', g ∈ gaps → g' ∈ gaps → g = g') →
     warnings = [] ∧ slice_positions st = slice_positions self) ∧
    StronglySorted (λ u v, np.compare u v = Lt) (np.unique gaps) ∧
    (∀ v, v ∈ np.unique gaps → v ∈ gaps) ∧
    (∀ g, g ∈ gaps → ∃ v, v ∈ np.unique gaps ∧ np.compare g v = Eq).
Proof.
  intros (first & rest & Hobj & Hrest)%two_slices gaps. subst gaps.
  rewrite Hobj.
  destruct (assemble_eq self first rest Hobj Hrest)
    as (m & dz & dy & dx & Hm & _ & _ & _ & Heq).
  eexists _, _, m. split; [exact Heq|].
  split; [by apply complete_eq|]. split; [exact Hm|].
  cbn [slice_positions].
  split; [|split; [|split; [apply unique_ascending|]]];
    [| |split; [apply unique_observed|apply unique_represents]].
  - destruct (existsb _ _) eqn:Hex.
    + apply existsb_exists in Hex as (g & Hg & Hirr).
      apply list_elem_of_In in Hg. left. split; [by exists g|done].
    + right. split; [|done]. intros g Hg.
      destruct (resolver.irregular m g) eqn:Hirr; [|done].
      rewrite <- Hex. symmetry. apply existsb_exists. exists g.
      by rewrite <- list_elem_of_In.
  - intros Hall. destruct (existsb _ _) eqn:Hex; [|done].
    apply existsb_exists in Hex as (g & Hg & Hirr).
    apply list_elem_of_In in Hg.
    rewrite (min_all_equal _ m Hm Hall g Hg) in Hirr.
    unfold resolver.irregular, resolver.multiplier in Hirr.
    by rewrite div_self_not_above in Hirr.
Qed.

(** C3, on three slices at z = 0, 1, 3. *)
Lemma irregular_spacing_of_gapped_stack :
  (2 ≤ length (image_file_objects examples.gapped_stack))%nat ∧
  ∃ st warnings m,
    complete examples.accept examples.gapped_stack = Ok (st, warnings) ∧
    np.min (resolver.gaps (image_file_objects examples.gapped_stack)) = Ok m ∧
    (((∃ g, g ∈ resolver.gaps (image_file_objects examples.gapped_stack) ∧
            resolver.irregular m g = true) ∧
      warnings
      = [InconsistentSliceDistance
           (np.unique
              (resolver.gaps (image_file_objects examples.gapped_stack)))] ∧
      slice_positions st
      = Some (np.cumsum
                (0%float
                 :: map resolver.round5
                      (resolver.gaps
                         (image_file_objects examples.gapped_stack)))))
     ∨ ((∀ g, g ∈ resolver.gaps (image_file_objects examples.gapped_stack) →
              resolver.irregular m g = false) ∧
        warnings = [] ∧
        slice_positions st = slice_positions examples.gapped_stack)).
Proof.
  assert (H : (2 ≤ length (image_file_objects examples.gapped_stack))%nat)
    by (simpl; lia).
  split; [exact H|].
  destruct (irregular_spacing_warning examples.accept examples.gapped_stack H)
    as (st & warnings & m & _ & Hcomplete & Hm & Hcases & _).
  exists st, warnings, m. split; [by apply Hcomplete|by split].
Defined.

(** C4, as it is worded: on two slices 0.123456789 apart the z-row of the
    assembled orientation is not the smallest delta divided by the resolved
    spacing. The delta is rounded to 0.12346 first, like the spacing, and
    the entry is 1; without the rounding it would be 0.99997... *)
Lemma z_row_is_rounded_before_division :
  ∃ st warnings M M',
    assemble examples.fine_pair = Ok (st, warnings) ∧
    image_orientation st = Some M ∧
    resolver.unrounded_orientation (image_file_objects examples.fine_pair)
    = Ok M' ∧
    M ≠ M'.
Proof.
  eexists _, _, _, _. split; [by vm_compute|]. split; [done|].
  split; [by vm_compute|].
  intros H.
  apply (f_equal (λ M, (item0 (item0 M) =? 1)%float)) in H.
  vm_compute in H. done.
Qed.

(** C4, amended. For a stack of at least two slices assembly returns, and
    so does [complete] if the final check accepts the result. Row 0 of the
    assembled orientation is the vector of the smallest consecutive deltas
    of the sorted positions along z, y and x, each rounded to 5 decimal
    places, divided by the resolved z-spacing. If the first slice given is
    also the first slice in sorted order, rows 1 and 2 are rows 1 and 2 of
    its direction matrix with the flattened entries reversed. *)
Theorem orientation_of_assembled_stack
    (check : ImageITKFileStack → result unit) (self : ImageITKFileStack) :
  (2 ≤ length (image_file_objects self))%nat →
  let objects := image_file_objects self in
  ∃ st warnings m dz dy dx M,
    assemble self = Ok (st, warnings) ∧
    (check st = Ok () → complete check self = Ok (st, warnings)) ∧
    np.min (resolver.gaps objects) = Ok m ∧
    resolver.smallest_delta item0 (resolver.sorted_origins objects) = Ok dz ∧
    resolver.smallest_delta item1 (resolver.sorted_origins objects) = Ok dy ∧
    resolver.smallest_delta item2 (resolver.sorted_origins objects) = Ok dx ∧
    image_orientation st = Some M ∧
    item0 M
    = divide3
        (Tuple3 (resolver.round5 dz) (resolver.round5 dy) (resolver.round5 dx))
        (resolver.resolved_spacing m (resolver.gaps objects)) ∧
    ∀ first,
      getitem (resolver.sorted_slices objects) 0 = Ok first →
      getitem objects 0 = Ok first →
      item1 M
      = item1 (resolver.reversed_direction (GetDirection (file_metadata first)))
      ∧ item2 M
        = item2 (resolver.reversed_direction
                   (GetDirection (file_metadata first))).
Proof.
  intros (first & rest & Hobj & Hrest)%two_slices objects. subst objects.
  rewrite Hobj.
  destruct (assemble_eq self first rest Hobj Hrest)
    as (m & dz & dy & dx & Hm & Hdz & Hdy & Hdx & Heq).
  eexists _, _, m, dz, dy, dx, _. split; [exact Heq|].
  split; [by apply complete_eq|].
  repeat (split; [done|]).
  by intros f _ [= <-].
Qed.

(** C4, amended, on three slices at z = 0, 1, 2. *)
Lemma orientation_of_even_stack :
  (2 ≤ length (image_file_objects examples.even_stack))%nat ∧
  ∃ st warnings M,
    complete examples.accept examples.even_stack = Ok (st, warnings) ∧
    image_orientation st = Some M ∧
    item1 M = (Tuple3 0 1 0)%float ∧ item2 M = (Tuple3 0 0 1)%float.
Proof.
  assert (H : (2 ≤ length (image_file_objects examples.even_stack))%nat)
    by (simpl; lia).
  split; [exact H|].
  destruct (orientation_of_assembled_stack examples.accept
              examples.even_stack H)
    as (st & warnings & _ & _ & _ & _ & M & _ & Hcomplete & _ & _ & _ & _
        & HM & _ & Hrows).
  exists st, warnings, M. split; [by apply Hcomplete|]. split; [exact HM|].
  apply (Hrows (examples.slice "a" 0 examples.unit_spacing));
    vm_compute; reflexivity.
Defined.

(** C7, as it is worded: assembly of a single slice does not complete, even
    with a check that accepts everything. *)
Lemma single_slice_does_not_complete :
  length (image_file_objects examples.single_slice) = 1%nat ∧
  complete examples.accept examples.single_slice = Raise ValueError.
Proof. split; by vm_compute. Qed.

(** C7, amended. For a stack of a single slice there is no gap between
    consecutive origins, the minimum of the gaps is taken all the same, and
    that raises [ValueError]: [complete] ends there, whatever the final
    check would say. *)
Theorem single_slice_raises (check : ImageITKFileStack → result unit)
    (self : ImageITKFileStack) (o : ImageITKFile) :
  image_file_objects self = [o] →
  resolver.gaps (image_file_objects self) = [] ∧
  np.min (resolver.gaps (image_file_objects self)) = Raise ValueError ∧
  complete check self = Raise ValueError.
Proof.
  intros Hobj. rewrite Hobj. repeat split.
  apply complete_raises. by apply (assemble_single self o).
Qed.

(** C7, amended, on one slice at z = 0. *)
Lemma single_slice_raises_on_example :
  image_file_objects examples.single_slice
  = [examples.slice "a" 0 examples.unit_spacing] ∧
  complete examples.accept examples.single_slice = Raise ValueError.
Proof.
  assert (H : image_file_objects examples.single_slice
              = [examples.slice "a" 0 examples.unit_spacing])
    by reflexivity.
  split; [exact H|].
  exact (proj2 (proj2 (single_slice_raises examples.accept
                         examples.single_slice _ H))).
Defined.

(** C8. Two slices given upper first, one unit apart: the resolved
    spacing 1.0 equals the nominal z-spacing of the lower slice, the first
    in sorted order, whose nominal spacing is (1, 0.75, 0.75); the
    assembled spacing is (1, 0.5, 0.5), read from the upper slice. *)
Theorem spacing_read_from_first_given_slice :
  ∃ st warnings,
    assemble examples.upper_first = Ok (st, warnings) ∧
    image_spacing st = Some (Tuple3 1 0.5 0.5)%float ∧
    resolver.nominal_or_resolved (image_file_objects examples.upper_first)
    = Ok (Tuple3 1 0.75 0.75)%float.
Proof. eexists _, _. split; [by vm_compute|]. split; by vm_compute. Qed.

(** Read from the first slice given, the spacing is as the specification
    has it: the nominal spacing when its z-entry equals the resolved
    spacing, otherwise the resolved spacing with the nominal y and x. *)
Lemma stack_spacing_cases (nominal : triple float) (resolved : float) :
  ((item0 (reversed nominal) =? resolved)%float = true ∧
   stack_spacing nominal resolved = reversed nominal)
  ∨ ((item0 (reversed nominal) =? resolved)%float = false ∧
     stack_spacing nominal resolved
     = Tuple3 resolved (item1 (reversed nominal)) (item2 (reversed nominal))).
Proof.
  unfold stack_spacing. destruct (_ =? _)%float; [by left|by right].
Qed.

(** When the first slice given is the first slice in sorted order, the
    assembled spacing is the spacing in the words of the specification. *)
Lemma spacing_as_specified (self : ImageITKFileStack) (first : ImageITKFile) :
  (2 ≤ length (image_file_objects self))%nat →
  getitem (image_file_objects self) 0 = Ok first →
  getitem (resolver.sorted_slices (image_file_objects self)) 0 = Ok first →
  ∃ st warnings spacing,
    assemble self = Ok (st, warnings) ∧
    image_spacing st = Some spacing ∧
    resolver.nominal_or_resolved (image_file_objects self) = Ok spacing.
Proof.
  intros (first' & rest & Hobj & Hrest)%two_slices Hfirst Hsorted.
  rewrite Hobj in Hfirst, Hsorted |- *. injection Hfirst as ->.
  destruct (assemble_eq self first rest Hobj Hrest)
    as (m & dz & dy & dx & Hm & _ & _ & _ & Heq).
  eexists _, _, _. split; [exact Heq|]. split; [done|].
  unfold resolver.nominal_or_resolved. rewrite Hsorted. simpl.
  by rewrite Hm.
Qed.

(** A list of slices given in sorted order comes back in sorted order. *)
Lemma sorted_input_stays_sorted (self st : ImageITKFileStack)
    (warnings : list UserWarning) :
  resolver.sorted_slices (image_file_objects self) = image_file_objects self →
  assemble self = Ok (st, warnings) →
  image_file_objects st = resolver.sorted_slices (image_file_objects self).
Proof.
  intros -> Heq. by apply assemble_keeps_given_order in Heq.
Qed.

End Assemble.

(** ** [CTImage] *)

Section CTImage.
Import images.

Variable super_normalise_intensities :
  method → range → range → mask → ref → store → result (ref * store).
Variable super_scale_intensities : float → ref → store → result (ref * store).

Lemma fresh_ref_unused (h : store) : h !! fresh (dom h) = None.
Proof. apply not_elem_of_dom, is_fresh. Qed.

(** The change of class: a new object, a [GenericImage] with the given
    voxel data and the template's geometry and diagnostics; no object of
    the store is touched. *)
Lemma as_generic_image_eq (image : ref) (d : list float) (h : store)
    (t : images.image) :
  h !! image = Some t →
  ct_image.as_generic_image image d h
  = Ok (fresh (dom h),
        <[fresh (dom h) :=
            Image GenericImage (Some d) (image_origin t) (image_spacing t)
              (image_orientation t) (image_dimension t) (diagnostics t)]> h).
Proof.
  intros Ht. unfold ct_image.as_generic_image, generic_image.init,
    generic_image.update_from_template, deref.
  assert (Hne : fresh (dom h) ≠ image).
  { intros <-. by rewrite fresh_ref_unused in Ht. }
  cbn. rewrite (lookup_insert_ne _ (fresh (dom h)) image), Ht by done. simpl.
  rewrite lookup_insert_eq. simpl. by rewrite insert_insert_eq.
Qed.

(** What lines 46-47 and 63-64 add to the inherited transform. Let the
    inherited transform return an image [image] with voxel data [d] and
    with the geometry and diagnostics of [self]. Then
    [normalise_intensities] with a method other than none, and
    [scale_intensities] with a scale other than 1.0, return a reference
    that was not in use, to a [GenericImage] holding [d] and the geometry
    and diagnostics of [self]; every object that existed is as the
    inherited transform left it. *)
Lemma demotion_after_inherited_transform (self : ref) (h : store)
    (o : images.image) :
  h !! self = Some o → class o = CTImage →
  (∀ m intensity_range saturation_range msk image h1 t d,
     super_normalise_intensities m intensity_range saturation_range msk self h
     = Ok (image, h1) →
     h1 !! image = Some t → image_data t = Some d →
     template_fields t = template_fields o →
     is_none m = false →
     ∃ new h2 g,
       ct_image.normalise_intensities super_normalise_intensities m
         intensity_range saturation_range msk self h = Ok (new, h2) ∧
       h1 !! new = None ∧
       h2 !! new = Some g ∧
       class g = GenericImage ∧ image_data g = Some d ∧
       template_fields g = template_fields o ∧
       ∀ r, r ≠ new → h2 !! r = h1 !! r)
  ∧ (∀ scale image h1 t d,
       super_scale_intensities scale self h = Ok (image, h1) →
       h1 !! image = Some t → image_data t = Some d →
       template_fields t = template_fields o →
       (scale =? 1)%float = false →
       ∃ new h2 g,
         ct_image.scale_intensities super_scale_intensities scale self h
         = Ok (new, h2) ∧
         h1 !! new = None ∧
         h2 !! new = Some g ∧
         class g = GenericImage ∧ image_data g = Some d ∧
         template_fields g = template_fields o ∧
         ∀ r, r ≠ new → h2 !! r = h1 !! r).
Proof.
  intros _ _. split.
  - intros m ir sr msk image h1 t d Hsuper Ht Hd Hgeo Hm.
    unfold ct_image.normalise_intensities. rewrite Hsuper. simpl.
    unfold deref. rewrite Ht. simpl. rewrite Hd, Hm.
    rewrite (as_generic_image_eq image d h1 t Ht).
    eexists _, _, _. split; [done|]. split; [apply fresh_ref_unused|].
    split; [apply lookup_insert_eq|]. repeat (split; [done|]).
    intros r Hr. by rewrite lookup_insert_ne.
  - intros scale image h1 t d Hsuper Ht Hd Hgeo Hs.
    unfold ct_image.scale_intensities. rewrite Hsuper. simpl.
    unfold deref. rewrite Ht. simpl. rewrite Hd, Hs.
    rewrite (as_generic_image_eq image d h1 t Ht).
    eexists _, _, _. split; [done|]. split; [apply fresh_ref_unused|].
    split; [apply lookup_insert_eq|]. repeat (split; [done|]).
    intros r Hr. by rewrite lookup_insert_ne.
Qed.

(** The identity cases, whatever the inherited method returns: the result
    is [self], in the store the inherited method left. *)
Lemma normalise_none_returns_self (m : method)
    (intensity_range saturation_range : range) (msk : mask) (self image : ref)
    (h h1 : store) :
  is_none m = true →
  super_normalise_intensities m intensity_range saturation_range msk self h
  = Ok (image, h1) →
  is_Some (h1 !! image) →
  ct_image.normalise_intensities super_normalise_intensities m intensity_range
    saturation_range msk self h = Ok (self, h1).
Proof.
  intros Hm Hsuper [t Ht]. unfold ct_image.normalise_intensities.
  rewrite Hsuper. simpl. unfold deref. rewrite Ht. simpl. rewrite Hm.
  by destruct (image_data t).
Qed.

Lemma scale_one_returns_self (scale : float) (self image : ref)
    (h h1 : store) :
  (scale =? 1)%float = true →
  super_scale_intensities scale self h = Ok (image, h1) →
  is_Some (h1 !! image) →
  ct_image.scale_intensities super_scale_intensities scale self h
  = Ok (self, h1).
Proof.
  intros Hs Hsuper [t Ht]. unfold ct_image.scale_intensities.
  rewrite Hsuper. simpl. unfold deref. rewrite Ht. simpl. rewrite Hs.
  by destruct (image_data t).
Qed.

(** C6. Let [self] be a CT image. If the method is absent or ["none"], or
    the scale equals 1.0, and the inherited method, as the specification
    has it for these cases, returns [self] and leaves the store as it is,
    then so does the method of [CTImage]: the result is [self], the store
    is unchanged, and [self] is the CT image it was. *)
Theorem identity_cases_return_self (self : ref) (h : store)
    (o : images.image) :
  h !! self = Some o → class o = CTImage →
  (∀ m intensity_range saturation_range msk,
     is_none m = true →
     super_normalise_intensities m intensity_range saturation_range msk self h
     = Ok (self, h) →
     ∃ h',
       ct_image.normalise_intensities super_normalise_intensities m
         intensity_range saturation_range msk self h = Ok (self, h') ∧
       h' = h ∧ h' !! self = Some o ∧ class o = CTImage)
  ∧ (∀ scale,
       (scale =? 1)%float = true →
       super_scale_intensities scale self h = Ok (self, h) →
       ∃ h',
         ct_image.scale_intensities super_scale_intensities scale self h
         = Ok (self, h') ∧
         h' = h ∧ h' !! self = Some o ∧ class o = CTImage).
Proof.
  intros Ho Hc. split.
  - intros m ir sr msk Hm Hsuper. exists h. split; [|done].
    by apply (normalise_none_returns_self m ir sr msk self self h h).
  - intros scale Hs Hsuper. exists h. split; [|done].
    by apply (scale_one_returns_self scale self self h h).
Qed.

(** C10. Let [self] be a CT image without voxel data. Then
    [update_image_data] leaves the store as it is; and whenever the
    inherited method returns an image without voxel data,
    [normalise_intensities], for any method, and [scale_intensities], for
    any scale, return [self] in the store the inherited method left: no
    [GenericImage] is made. *)
Theorem no_voxel_data_no_demotion (self : ref) (h : store)
    (o : images.image) :
  h !! self = Some o → class o = CTImage → image_data o = None →
  ct_image.update_image_data self h = Ok h
  ∧ (∀ m intensity_range saturation_range msk image h1 t,
       super_normalise_intensities m intensity_range saturation_range msk
         self h = Ok (image, h1) →
       h1 !! image = Some t → image_data t = None →
       ct_image.normalise_intensities super_normalise_intensities m
         intensity_range saturation_range msk self h = Ok (self, h1))
  ∧ (∀ scale image h1 t,
       super_scale_intensities scale self h = Ok (image, h1) →
       h1 !! image = Some t → image_data t = None →
       ct_image.scale_intensities super_scale_intensities scale self h
       = Ok (self, h1)).
Proof.
  intros Ho _ Hd. split; [|split].
  - unfold ct_image.update_image_data, deref. rewrite Ho. simpl.
    by rewrite Hd.
  - intros m ir sr msk image h1 t Hsuper Ht Hnone.
    unfold ct_image.normalise_intensities. rewrite Hsuper. simpl.
    unfold deref. rewrite Ht. simpl. by rewrite Hnone.
  - intros scale image h1 t Hsuper Ht Hnone.
    unfold ct_image.scale_intensities. rewrite Hsuper. simpl.
    unfold deref. rewrite Ht. simpl. by rewrite Hnone.
Qed.

End CTImage.

(** ** Demotion, over the transforms of [GenericImage] *)

Section Demotion.
Import images.

Variable normalise_voxels :
  string → range → range → mask → list float → list float.





End Demotion.

(** ** The methods of [CTImage] over the methods of [GenericImage] *)

Section Examples.
Import images.
Local Open Scope float_scope.


(** C6, on a CT image of four voxels: no method, and a scale of 1. *)
Lemma identity_cases_on_a_ct_image :
  (examples.one_ct (Some [1; 2; 3; 4]) !! 0%nat
   = Some (examples.ct (Some [1; 2; 3; 4])) ∧
   class (examples.ct (Some [1; 2; 3; 4])) = CTImage)
  ∧ ct_image.normalise_intensities
      (generic_image.normalise_intensities examples.halve) None None None
      None 0%nat (examples.one_ct (Some [1; 2; 3; 4]))
    = Ok (0%nat, examples.one_ct (Some [1; 2; 3; 4]))
  ∧ ct_image.scale_intensities generic_image.scale_intensities 1 0%nat
      (examples.one_ct (Some [1; 2; 3; 4]))
    = Ok (0%nat, examples.one_ct (Some [1; 2; 3; 4])).
Proof.
  assert (Ho : examples.one_ct (Some [1; 2; 3; 4]) !! 0%nat
               = Some (examples.ct (Some [1; 2; 3; 4]))) by reflexivity.
  assert (Hc : class (examples.ct (Some [1; 2; 3; 4])) = CTImage)
    by reflexivity.
  split; [by split|].
  destruct (identity_cases_return_self
              (generic_image.normalise_intensities examples.halve)
              generic_image.scale_intensities 0%nat _ _ Ho Hc)
    as [Hnormalise Hscale].
  split.
  - destruct (Hnormalise None None None None)
      as (h' & Heq & -> & _); [reflexivity | reflexivity |].
    exact Heq.
  - destruct (Hscale 1) as (h' & Heq & -> & _); [reflexivity | reflexivity |].
    exact Heq.
Defined.

(** C10, on a CT image without voxel data: a range normalisation, and a
    scale of 2. *)
Lemma no_demotion_without_voxel_data :
  (examples.one_ct None !! 0%nat = Some (examples.ct None) ∧
   class (examples.ct None) = CTImage ∧
   image_data (examples.ct None) = None)
  ∧ ct_image.update_image_data 0%nat (examples.one_ct None)
    = Ok (examples.one_ct None)
  ∧ ct_image.normalise_intensities
      (generic_image.normalise_intensities examples.halve) (Some "range")
      None None None 0%nat (examples.one_ct None)
    = Ok (0%nat, examples.one_ct None)
  ∧ ct_image.scale_intensities generic_image.scale_intensities 2 0%nat
      (examples.one_ct None)
    = Ok (0%nat, examples.one_ct None).
Proof.
  assert (Ho : examples.one_ct None !! 0%nat = Some (examples.ct None))
    by reflexivity.
  assert (Hc : class (examples.ct None) = CTImage) by reflexivity.
  assert (Hd : image_data (examples.ct None) = None) by reflexivity.
  split; [by repeat split|].
  destruct (no_voxel_data_no_demotion
              (generic_image.normalise_intensities examples.halve)
              generic_image.scale_intensities 0%nat _ _ Ho Hc Hd)
    as (Hupdate & Hnormalise & Hscale).
  split; [exact Hupdate|]. split.
  - apply (Hnormalise (Some "range"%string) None None None 0%nat _
             (examples.ct None)); reflexivity.
  - apply (Hscale 2 0%nat _ (examples.ct None)); reflexivity.
Defined.

End Examples.

(** ** Hounsfield units *)

Section Hounsfield.
Import images.
Local Open Scope float_scope.

(** The convention of [np.round]: a tie goes to the even neighbour. *)
Example round_ties_to_even :
  np.round [2.5; -0.5; 3.5; 0.5; 1.5; -1.5; 0.3; -2.75]
  = [2; -0; 4; 0; 2; -2; 0; -3].
Proof. by vm_compute. Qed.

(** C9, as it is worded: a voxel that is NaN stays NaN under
    [update_image_data], so not every stored value of a CT image is an
    integer afterwards. *)
Lemma nan_voxel_is_kept :
  ∃ h' o' d',
    ct_image.update_image_data 0%nat (examples.one_ct (Some [2.5; nan]))
    = Ok h' ∧
    h' !! 0%nat = Some o' ∧ class o' = CTImage ∧ image_data o' = Some d' ∧
    ∃ v, v ∈ d' ∧ integer_value v = None.
Proof.
  eexists _, _, _. split; [by vm_compute|]. split; [by vm_compute|].
  split; [done|]. split; [done|].
  exists nan. split; [by right; left|by vm_compute].
Qed.

(** The integrity step. For a CT image with voxel data [d],
    [update_image_data] stores [np.rint] of every voxel and leaves class,
    geometry and diagnostics as they are. A finite voxel becomes an
    integer, one nearest to it, and the even one when it lies halfway
    between two integers; a voxel that is NaN or infinite is kept. *)
Lemma update_image_data_rounds_half_even (self : ref) (h : store)
    (o : images.image) (d : list float) :
  h !! self = Some o → class o = CTImage → image_data o = Some d →
  ∃ h' o' d',
    ct_image.update_image_data self h = Ok h' ∧
    h' !! self = Some o' ∧ (∀ r, r ≠ self → h' !! r = h !! r) ∧
    class o' = CTImage ∧ template_fields o' = template_fields o ∧
    image_data o' = Some d' ∧ length d' = length d ∧
    ∀ i v, d !! i = Some v →
      d' !! i = Some (np.rint v) ∧
      (isfinite v = true →
       ∃ z, integer_value (np.rint v) = Some z ∧ nearest_even v z) ∧
      (isfinite v = false → np.rint v = v).
Proof.
  intros Ho Hc Hd.
  exists (<[self := set_image_data (Some (np.round d)) o]> h),
    (set_image_data (Some (np.round d)) o), (np.round d).
  split.
  { unfold ct_image.update_image_data, deref. rewrite Ho. simpl.
    by rewrite Hd. }
  split; [apply lookup_insert_eq|].
  split; [by intros r Hr; rewrite lookup_insert_ne|].
  split; [done|]. split; [done|]. split; [done|].
  split; [apply length_map|].
  intros i v Hv. split; [|split].
  - unfold np.round. by rewrite list_lookup_fmap, Hv.
  - apply rint_nearest_even.
  - apply rint_not_finite.
Qed.

(** The assignment of voxel data as the specification has it: on a CT
    image the data that is stored is the rounded data. *)
Lemma set_voxel_grid_rounds (d : list float) (self : ref) (h : store)
    (o : images.image) :
  h !! self = Some o → class o = CTImage →
  ct_image.set_voxel_grid d self h
  = Ok (<[self := set_image_data (Some (np.round d)) o]> h).
Proof.
  intros Ho Hc. unfold ct_image.set_voxel_grid, deref. rewrite Ho. simpl.
  rewrite Hc. unfold ct_image.update_image_data, deref.
  rewrite lookup_insert_eq. simpl. by rewrite insert_insert_eq.
Qed.

End Hounsfield.

(** ** Hounsfield units over the life of a CT image *)

Section Lifecycle.
Import images lifecycle.

Variable normalise_voxels :
  string → range → range → mask → list float → list float.

Lemma rint_whole (v : float) : whole (np.rint v).
Proof.
  intros Hfin. destruct (isfinite v) eqn:Hv.
  - destruct (rint_nearest_even v Hv) as (z & Hz & _). by exists z.
  - rewrite (rint_not_finite v Hv) in Hfin. congruence.
Qed.

Lemma round_whole (d : list float) : Forall whole (np.round d).
Proof. unfold np.round. apply Forall_map, Forall_true, rint_whole. Qed.

(** The transforms of [GenericImage], as the specification has them,
    change no object that exists. *)
Lemma generic_scale_frame (scale : float) (self r : ref) (h h' : store) :
  generic_image.scale_intensities scale self h = Ok (r, h') →
  ∀ l, is_Some (h !! l) → h' !! l = h !! l.
Proof.
  unfold generic_image.scale_intensities, deref.
  destruct (h !! self) as [o|]; [|done]. cbn [mbind result_bind].
  destruct (image_data o) as [d|]; [|by intros [= _ <-]].
  destruct (_ =? _)%float; [by intros [= _ <-]|].
  unfold generic_image.transformed. intros [= _ <-] l [x Hl].
  rewrite lookup_insert_ne; [done|].
  intros <-. by rewrite fresh_ref_unused in Hl.
Qed.

Lemma generic_normalise_frame (m : method)
    (intensity_range saturation_range : range) (msk : mask) (self r : ref)
    (h h' : store) :
  generic_image.normalise_intensities normalise_voxels m intensity_range
    saturation_range msk self h = Ok (r, h') →
  ∀ l, is_Some (h !! l) → h' !! l = h !! l.
Proof.
  unfold generic_image.normalise_intensities, deref.
  destruct (negb _); [done|].
  destruct (h !! self) as [o|]; [|done]. cbn [mbind result_bind].
  destruct (image_data o) as [d|]; [|by intros [= _ <-]].
  destruct m as [s|]; [|by intros [= _ <-]].
  destruct (is_none (Some s)); [by intros [= _ <-]|].
  unfold generic_image.transformed. intros [= _ <-] l [x Hl].
  rewrite lookup_insert_ne; [done|].
  intros <-. by rewrite fresh_ref_unused in Hl.
Qed.

(** Neither do lines 39-49 and 54-66, after an inherited transform that
    changes none. *)
Lemma demotion_frame (image : ref) (h1 : store) (r : ref) (h2 : store)
    (self : ref) (keep : bool) :
  (t ← deref image h1;
   match image_data t with
   | None => Ok (self, h1)
   | Some d => if keep then Ok (self, h1)
               else ct_image.as_generic_image image d h1
   end) = Ok (r, h2) →
  ∀ l, is_Some (h1 !! l) → h2 !! l = h1 !! l.
Proof.
  unfold deref. destruct (h1 !! image) as [t|] eqn:Ht; [|done].
  cbn [mbind result_bind].
  destruct (image_data t) as [d|]; [|by intros [= _ <-]].
  destruct keep; [by intros [= _ <-]|].
  rewrite (as_generic_image_eq image d h1 t Ht).
  intros [= _ <-] l [x Hl]. rewrite lookup_insert_ne; [done|].
  intros <-. by rewrite fresh_ref_unused in Hl.
Qed.

Lemma ct_scale_frame (scale : float) (self r : ref) (h h' : store) :
  ct_image.scale_intensities generic_image.scale_intensities scale self h
  = Ok (r, h') →
  ∀ l, is_Some (h !! l) → h' !! l = h !! l.
Proof.
  unfold ct_image.scale_intensities.
  destruct (generic_image.scale_intensities scale self h)
    as [[image h1]|e] eqn:Hsuper; [|done].
  cbn [mbind result_bind]. intros Heq l Hl.
  pose proof (generic_scale_frame _ _ _ _ _ Hsuper l Hl) as H1.
  rewrite <- H1. apply (demotion_frame _ _ _ _ _ _ Heq). by rewrite H1.
Qed.

Lemma ct_normalise_frame (m : method)
    (intensity_range saturation_range : range) (msk : mask) (self r : ref)
    (h h' : store) :
  ct_image.normalise_intensities
    (generic_image.normalise_intensities normalise_voxels) m intensity_range
    saturation_range msk self h = Ok (r, h') →
  ∀ l, is_Some (h !! l) → h' !! l = h !! l.
Proof.
  unfold ct_image.normalise_intensities.
  destruct (generic_image.normalise_intensities _ _ _ _ _ _ _)
    as [[image h1]|e] eqn:Hsuper; [|done].
  cbn [mbind result_bind]. intros Heq l Hl.
  pose proof (generic_normalise_frame _ _ _ _ _ _ _ _ Hsuper l Hl) as H1.
  rewrite <- H1. apply (demotion_frame _ _ _ _ _ _ Heq). by rewrite H1.
Qed.

(** What one call does to an object that exists: nothing, or, to its
    receiver, an assignment of voxel data, which is rounded when the
    receiver is a CT image. *)
Lemma call_changes (self : ref) (op : operation) (h h' : store) (l : ref)
    (o : images.image) :
  call normalise_voxels self op h = Ok h' → h !! l = Some o →
  h' !! l = Some o
  ∨ (l = self ∧
     ∃ d, h' !! l = Some (set_image_data (Some d) o) ∧
          (class o = CTImage → Forall whole d)).
Proof.
  intros Hcall Hl. unfold call, deref in Hcall.
  destruct (h !! self) as [s|] eqn:Hs; [|done].
  cbn [mbind result_bind] in Hcall.
  assert (Hframe :
    (∀ l, is_Some (h !! l) → h' !! l = h !! l) → h' !! l = Some o).
  { intros Hf. rewrite Hf, Hl; by eauto. }
  assert (Hassign : ∀ d,
    (class s = CTImage → Forall whole d) →
    h' = <[self := set_image_data (Some d) s]> h →
    h' !! l = Some o
    ∨ (l = self ∧
       ∃ d, h' !! l = Some (set_image_data (Some d) o) ∧
            (class o = CTImage → Forall whole d))).
  { intros d Hd ->. destruct (decide (l = self)) as [->|Hne].
    - right. split; [done|]. exists d. rewrite lookup_insert_eq.
      rewrite Hs in Hl. injection Hl as <-. done.
    - left. by rewrite lookup_insert_ne. }
  destruct op as [d| |m ir sr msk|scale].
  - assert (Hset : ct_image.set_voxel_grid d self h = Ok h')
      by (by destruct (class s)).
    unfold ct_image.set_voxel_grid, deref in Hset. rewrite Hs in Hset.
    cbn [mbind result_bind] in Hset. destruct (class s) eqn:Hc.
    + unfold ct_image.update_image_data, deref in Hset.
      rewrite lookup_insert_eq in Hset. cbn in Hset.
      rewrite insert_insert_eq in Hset. injection Hset as <-.
      apply (Hassign (np.round d)); [intros _; apply round_whole|].
      by destruct s.
    + injection Hset as <-. by apply (Hassign d).
  - destruct (class s) eqn:Hc; [|injection Hcall as <-; by left].
    unfold ct_image.update_image_data, deref in Hcall. rewrite Hs in Hcall.
    cbn [mbind result_bind] in Hcall.
    destruct (image_data s) as [d|]; injection Hcall as <-; [|by left].
    apply (Hassign (np.round d)); [intros _; apply round_whole|done].
  - left. apply Hframe. destruct (class s).
    + destruct (ct_image.normalise_intensities _ _ _ _ _ _ _)
        as [[r h2]|e] eqn:Heq; [|done].
      injection Hcall as <-. by apply (ct_normalise_frame _ _ _ _ _ _ _ _ Heq).
    + destruct (generic_image.normalise_intensities _ _ _ _ _ _ _)
        as [[r h2]|e] eqn:Heq; [|done].
      injection Hcall as <-.
      by apply (generic_normalise_frame _ _ _ _ _ _ _ _ Heq).
  - left. apply Hframe. destruct (class s).
    + destruct (ct_image.scale_intensities _ _ _ _)
        as [[r h2]|e] eqn:Heq; [|done].
      injection Hcall as <-. by apply (ct_scale_frame _ _ _ _ _ Heq).
    + destruct (generic_image.scale_intensities _ _ _)
        as [[r h2]|e] eqn:Heq; [|done].
      injection Hcall as <-. by apply (generic_scale_frame _ _ _ _ _ Heq).
Qed.

(** A CT image on the Hounsfield scale stays one, whatever is called and
    on whichever object. *)
Lemma call_hounsfield (self r : ref) (op : operation) (h h' : store) :
  hounsfield self h → call normalise_voxels r op h = Ok h' →
  hounsfield self h'.
Proof.
  intros (o & Ho & Hc & Hd) Hcall.
  destruct (call_changes r op h h' self o Hcall Ho)
    as [Hsame|(_ & d & Hnew & Hwhole)].
  - by exists o.
  - exists (set_image_data (Some d) o). split; [done|]. split; [done|].
    intros d' [= <-]. by apply Hwhole.
Qed.

Lemma run_hounsfield (self : ref) (calls : list (ref * operation))
    (h h' : store) :
  hounsfield self h → run normalise_voxels calls h = Ok h' →
  hounsfield self h'.
Proof.
  revert h. induction calls as [|[r op] calls IH]; intros h Hh.
  - by intros [= <-].
  - cbn [run]. destruct (call normalise_voxels r op h) as [h1|e] eqn:Hcall;
      [|done].
    cbn [mbind result_bind]. apply IH. by apply (call_hounsfield self r op h).
Qed.

(** C9, amended. Let [self] be a CT image. An assignment of voxel data [d],
    as the specification has it, is followed by the integrity step: what
    is stored is [np.rint] of every voxel, and class, geometry and
    diagnostics stay. A finite voxel becomes an integer, one nearest to
    it, and the even one when it lies halfway between two integers; a
    voxel that is NaN or infinite is kept. From then on, whatever is
    called on [self] or on another object, [self] stays a CT image and
    every finite value it stores is an integer. *)
Theorem assigned_voxels_stay_whole (self : ref) (h : store)
    (o : images.image) (d : list float) :
  h !! self = Some o → class o = CTImage →
  ∃ h1 o1 d1,
    ct_image.set_voxel_grid d self h = Ok h1 ∧
    h1 !! self = Some o1 ∧ (∀ r, r ≠ self → h1 !! r = h !! r) ∧
    class o1 = CTImage ∧ template_fields o1 = template_fields o ∧
    image_data o1 = Some d1 ∧ length d1 = length d ∧
    (∀ i v, d !! i = Some v →
       d1 !! i = Some (np.rint v) ∧
       (isfinite v = true →
        ∃ z, integer_value (np.rint v) = Some z ∧ nearest_even v z) ∧
       (isfinite v = false → np.rint v = v)) ∧
    ∀ calls h2,
      run normalise_voxels calls h1 = Ok h2 →
      ∃ o2, h2 !! self = Some o2 ∧ class o2 = CTImage ∧
            ∀ d2 v, image_data o2 = Some d2 → v ∈ d2 →
                    isfinite v = true → is_Some (integer_value v).
Proof.
  intros Ho Hc.
  exists (<[self := set_image_data (Some (np.round d)) o]> h),
    (set_image_data (Some (np.round d)) o), (np.round d).
  split; [by apply set_voxel_grid_rounds|].
  split; [apply lookup_insert_eq|].
  split; [by intros r Hr; rewrite lookup_insert_ne|].
  split; [done|]. split; [done|]. split; [done|].
  split; [apply length_map|]. split.
  - intros i v Hv. split; [|split].
    + unfold np.round. by rewrite list_lookup_fmap, Hv.
    + apply rint_nearest_even.
    + apply rint_not_finite.
  - intros calls h2 Hrun.
    assert (Hh : hounsfield self
                   (<[self := set_image_data (Some (np.round d)) o]> h)).
    { eexists. split; [apply lookup_insert_eq|]. split; [done|].
      intros d' [= <-]. apply round_whole. }
    destruct (run_hounsfield self calls _ h2 Hh Hrun)
      as (o2 & Ho2 & Hc2 & Hd2).
    exists o2. split; [done|]. split; [done|].
    intros d2 v Hdata Hv. pose proof (Hd2 d2 Hdata) as Hall.
    rewrite Forall_forall in Hall. by apply Hall.
Qed.

End Lifecycle.

Section LifecycleExample.
Import images lifecycle.
Local Open Scope float_scope.

(** C9, amended, on a CT image without voxel data: the voxels 2.5, -0.5,
    3.5 and 1.25 are assigned to it; then it is scaled by 2 and
    normalised, 0.5 and 1.5 are assigned to it, and its integrity step
    runs once more. *)
Lemma assigned_voxels_of_a_ct_image :
  (examples.one_ct None !! 0%nat = Some (examples.ct None) ∧
   class (examples.ct None) = CTImage)
  ∧ ∃ h1 h2 o2,
      ct_image.set_voxel_grid [2.5; -0.5; 3.5; 1.25] 0%nat
        (examples.one_ct None) = Ok h1 ∧
      run examples.halve
        [(0%nat, ScaleIntensities 2);
         (0%nat, NormaliseIntensities (Some "range") None None None);
         (0%nat, SetVoxelGrid [0.5; 1.5]);
         (0%nat, UpdateImageData)] h1 = Ok h2 ∧
      h2 !! 0%nat = Some o2 ∧ class o2 = CTImage.
Proof.
  assert (Ho : examples.one_ct None !! 0%nat = Some (examples.ct None))
    by reflexivity.
  assert (Hc : class (examples.ct None) = CTImage) by reflexivity.
  split; [by split|].
  destruct (assigned_voxels_stay_whole examples.halve 0%nat _ _
              [2.5; -0.5; 3.5; 1.25] Ho Hc)
    as (h1 & o1 & d1 & Hassign & _ & _ & _ & _ & _ & _ & _ & Hkeeps).
  rewrite (set_voxel_grid_rounds _ _ _ _ Ho Hc) in Hassign.
  injection Hassign as <-.
  match type of Hkeeps with
  | ∀ calls h2, run _ calls ?h1 = _ → _ =>
      destruct (run examples.halve
                  [(0%nat, ScaleIntensities 2);
                   (0%nat, NormaliseIntensities (Some "range"%string) None
                             None None);
                   (0%nat, SetVoxelGrid [0.5; 1.5]);
                   (0%nat, UpdateImageData)] h1) as [h2|e] eqn:Hrun;
        [|by vm_compute in Hrun]
  end.
  destruct (Hkeeps _ h2 Hrun) as (o2 & Ho2 & Hc2 & _).
  eexists _, h2, o2. split; [by apply set_voxel_grid_rounds|].
  split; [exact Hrun|]. by split.
Defined.

End LifecycleExample.

(** * Further properties of the code *)

(** ** Numbers that are integers already *)

Lemma shift_pos_of_multiple (m p k : positive) :
  Z.pos m = Z.pos p * 2 ^ Z.pos k → m = shift_pos k p.
Proof.
  intros Hm. rewrite <- shift_pos_pow in Hm. by injection Hm.
Qed.

(** [np.rint] returns an integer as it is. *)
Lemma rint_of_integer (x : float) (z : Z) :
  integer_value x = Some z → np.rint x = x.
Proof.
  unfold integer_value, np.rint. intros Hz.
  pose proof (Prim2SF_valid x) as Hv.
  destruct (Prim2SF x) as [s|s| |s m e] eqn:E; try done.
  destruct (0 <=? e) eqn:He; [done|]. apply Z.leb_gt in He.
  destruct (Z.pos m mod 2 ^ (- e) =? 0) eqn:Hmod; [|done].
  apply Z.eqb_eq in Hmod. clear Hz.
  destruct e as [|k|k]; try lia. change (- Z.neg k) with (Z.pos k) in *.
  assert (Hd : 0 < 2 ^ Z.pos k) by (apply Z.pow_pos_nonneg; lia).
  pose proof (Z.div_mod (Z.pos m) (2 ^ Z.pos k) ltac:(lia)) as Hdm.
  rewrite Hmod, Z.add_0_r in Hdm.
  unfold np.half_even. change (- Z.neg k) with (Z.pos k).
  rewrite Hmod. change (2 * 0) with 0.
  replace (0 ?= 2 ^ Z.pos k) with Lt by (symmetry; by apply Z.compare_lt_iff).
  destruct (Z.pos m / 2 ^ Z.pos k) as [|p|p] eqn:Hq; try lia.
  assert (Hm : m = shift_pos k p) by (apply shift_pos_of_multiple; lia).
  assert (Hdigits : Z.pos (digits2_pos p) = 53 - Z.pos k).
  { unfold SpecFloat.valid_binary, bounded, canonical_mantissa, fexp in Hv.
    apply andb_prop in Hv as [Hc _]. apply Z.eqb_eq in Hc.
    rewrite Hm, digits2_pos_shift in Hc.
    unfold SpecFloat.emin, prec, emax in Hc. lia. }
  unfold np.of_integer. rewrite Hdigits.
  replace (53 - (53 - Z.pos k)) with (Z.pos k) by lia.
  rewrite <- Hm, <- E. apply SF2Prim_Prim2SF.
Qed.

(** Rounding twice is rounding once. *)
Lemma rint_idempotent (x : float) : np.rint (np.rint x) = np.rint x.
Proof.
  destruct (isfinite x) eqn:Hfin.
  - destruct (rint_nearest_even x Hfin) as (z & Hz & _).
    by apply (rint_of_integer _ z).
  - by rewrite !(rint_not_finite x Hfin).
Qed.

(** Only 1.0 compares equal to 1.0. *)
Lemma SFcompare_eq_finite (f : spec_float) (M : positive) (E : Z) :
  SFcompare f (S754_finite false M E) = Some Eq → f = S754_finite false M E.
Proof.
  destruct f as [s|s| |s m e]; simpl; try done; try (by destruct s).
  destruct s; [done|].
  destruct (Z.compare_spec e E) as [->| |]; try done.
  change (PosDef.Pos.compare_cont Eq m M) with (Pos.compare m M).
  destruct (Pos.compare_spec m M) as [->| |]; done.
Qed.

Lemma eqb_one (x : float) : (x =? 1)%float = true ↔ x = 1%float.
Proof.
  split; [|by intros ->].
  rewrite FloatAxioms.eqb_spec. unfold SFeqb. intros Heq.
  rewrite <- (SF2Prim_Prim2SF x), <- (SF2Prim_Prim2SF 1%float). f_equal.
  assert (H1 : Prim2SF 1%float = S754_finite false 4503599627370496 (-52))
    by (vm_compute; reflexivity).
  rewrite H1 in *. apply SFcompare_eq_finite.
  by destruct (SFcompare _ _) as [[]|].
Qed.

(** ** More on [ImageITKFileStack.complete] *)

Section Stack.
Import itk.

Variable check : ImageITKFileStack → result unit.

Lemma complete_inv (self st : ImageITKFileStack)
    (warnings : list UserWarning) :
  complete check self = Ok (st, warnings) → assemble self = Ok (st, warnings).
Proof.
  unfold complete. destruct (assemble self) as [[st' w']|e]; [|done].
  simpl. by destruct (check st').
Qed.

(** Whenever [assemble] returns there are at least two slices, and the
    result is the closed form of [assemble_eq]. *)
Lemma assemble_inv (self st : ImageITKFileStack)
    (warnings : list UserWarning) :
  assemble self = Ok (st, warnings) →
  ∃ first rest, image_file_objects self = first :: rest ∧ rest ≠ [].
Proof.
  destruct (image_file_objects self) as [|first [|second rest]] eqn:Hobj.
  - by rewrite (assemble_empty self Hobj).
  - by rewrite (assemble_single self first Hobj).
  - intros _. by exists first, (second :: rest).
Qed.

(** X1. A stack without slices: line 54 asks for the first file object and
    raises [IndexError], before any distance is computed. *)
Theorem empty_stack_raises_index_error (self : ImageITKFileStack) :
  image_file_objects self = [] → complete check self = Raise IndexError.
Proof. intros Hobj. by apply complete_raises, assemble_empty. Qed.

(** X2. Whenever [complete] returns, the file objects are the ones given, in
    the order in which they were given, and the stack's own metadata is
    untouched. *)
Theorem complete_keeps_file_objects (self st : ImageITKFileStack)
    (warnings : list UserWarning) :
  complete check self = Ok (st, warnings) →
  image_file_objects st = image_file_objects self ∧
  image_metadata st = image_metadata self.
Proof.
  intros Heq%complete_inv.
  destruct (assemble_inv _ _ _ Heq) as (first & rest & Hobj & Hrest).
  destruct (assemble_eq self first rest Hobj Hrest)
    as (m & dz & dy & dx & _ & _ & _ & _ & Hclosed).
  rewrite Hclosed in Heq. injection Heq as <- _. by rewrite Hobj.
Qed.

(** A rearrangement of a list that agrees with it on a key without
    repeats is the list itself. *)
Lemma Permutation_same_keys {A B : Type} (f : A → B) (l l' : list A) :
  NoDup (f <$> l) → l ≡ₚ l' → f <$> l = f <$> l' → l = l'.
Proof.
  revert l'. induction l as [|x l IH]; intros l' Hnd Hperm Hmap.
  - by apply Permutation_nil_l in Hperm.
  - destruct l' as [|y l']; [done|]. csimpl in *.
    injection Hmap as Hxy Hmap. apply NoDup_cons in Hnd as [Hx Hnd].
    assert (x = y) as <-.
    { assert (Hy : y ∈ x :: l) by (rewrite Hperm; left).
      apply elem_of_cons in Hy as [->|Hy]; [done|].
      exfalso. apply Hx. rewrite Hxy. by apply list_elem_of_fmap_2. }
    f_equal. apply IH; [done| |done]. by apply (inj (cons x)) in Hperm.
Qed.

(** When [sort_values] leaves every row where it was, the first row of the
    table holds the origin of the first object, reversed to (z, y, x). *)
Lemma position_table_in_order (first : ImageITKFile)
    (rest : list ImageITKFile) :
  pd.values pd.original_object_order (position_table (first :: rest))
  = seq 0 (length (first :: rest)) →
  ∃ r, getitem (position_table (first :: rest)) 0 = Ok r ∧
       pd.row_origin r = reversed (GetOrigin (file_metadata first)).
Proof.
  intros Horder.
  pose proof (position_table_order (first :: rest)) as Hlabel.
  revert Horder Hlabel. unfold position_table, pd.sort_values, pd.values.
  set (origins := map _ (first :: rest)).
  set (F := pd.frame _ _ _). intros Horder Hlabel.
  assert (HF : pd.label <$> F = seq 0 (length (first :: rest))).
  { unfold F, pd.frame. rewrite frame_from_labels; unfold origins;
      by rewrite !length_map. }
  assert (Hmap : pd.label <$> stable_sort pd.compare_rows F
                 = map pd.original_object_order
                     (stable_sort pd.compare_rows F)).
  { clear Horder. induction (stable_sort pd.compare_rows F) as [|r T IH];
      [done|].
    apply Forall_cons in Hlabel as [Hr HT]. csimpl. by rewrite Hr, IH. }
  assert (Hsame : stable_sort pd.compare_rows F = F).
  { apply (Permutation_same_keys pd.label).
    - rewrite Hmap, Horder. apply NoDup_seq.
    - apply stable_sort_Permutation.
    - by rewrite Hmap, Horder, HF. }
  rewrite Hsame. unfold F, origins. simpl. eexists. split; [done|].
  unfold pd.row_origin. simpl. by destruct (GetOrigin (file_metadata first)).
Qed.

(** X3. Whenever [complete] returns, the origin of the stack is the origin of
    the first file object given, reversed to (z, y, x). If [sort_values]
    leaves every row of the position table where it was, which it does for
    slices given in ascending order, this is the position in the first row
    of the table, the lowest one. *)
Theorem origin_of_first_file_object (self st : ImageITKFileStack)
    (warnings : list UserWarning) :
  complete check self = Ok (st, warnings) →
  ∃ first,
    getitem (image_file_objects self) 0 = Ok first ∧
    image_origin st = Some (reversed (GetOrigin (file_metadata first))) ∧
    (pd.values pd.original_object_order
       (position_table (image_file_objects self))
     = seq 0 (length (image_file_objects self)) →
     ∃ r, getitem (position_table (image_file_objects self)) 0 = Ok r ∧
          image_origin st = Some (pd.row_origin r)).
Proof.
  intros Heq%complete_inv.
  destruct (assemble_inv _ _ _ Heq) as (first & rest & Hobj & Hrest).
  destruct (assemble_eq self first rest Hobj Hrest)
    as (m & dz & dy & dx & _ & _ & _ & _ & Hclosed).
  rewrite Hclosed in Heq. injection Heq as <- _.
  exists first. rewrite Hobj. split; [done|]. split; [done|].
  intros Horder.
  destruct (position_table_in_order first rest Horder) as (r & Hr & Horigin).
  exists r. split; [done|]. cbn [image_origin]. by rewrite Horigin.
Qed.

(** X4. Whenever [complete] returns, the dimension of the stack is the number
    of file objects, followed by the y and the x size of the stack's own
    metadata; the z size of the metadata is not used. *)
Theorem dimension_counts_slices (self st : ImageITKFileStack)
    (warnings : list UserWarning) :
  complete check self = Ok (st, warnings) →
  image_dimension st
  = Some (Tuple3 (length (image_file_objects self))
            (item1 (GetSize (image_metadata self)))
            (item0 (GetSize (image_metadata self)))).
Proof.
  intros Heq%complete_inv.
  destruct (assemble_inv _ _ _ Heq) as (first & rest & Hobj & Hrest).
  destruct (assemble_eq self first rest Hobj Hrest)
    as (m & dz & dy & dx & _ & _ & _ & _ & Hclosed).
  rewrite Hclosed in Heq. injection Heq as <- _. by rewrite Hobj.
Qed.

(** X5. Whenever [complete] returns, the y and x spacing of the stack are the
    y and x spacing of the first file object given, in both branches of
    lines 83-86: only the z spacing is ever replaced. *)
Theorem in_plane_spacing_is_nominal (self st : ImageITKFileStack)
    (warnings : list UserWarning) :
  complete check self = Ok (st, warnings) →
  ∃ first spacing,
    getitem (image_file_objects self) 0 = Ok first ∧
    image_spacing st = Some spacing ∧
    item1 spacing = item1 (GetSpacing (file_metadata first)) ∧
    item2 spacing = item0 (GetSpacing (file_metadata first)).
Proof.
  intros Heq%complete_inv.
  destruct (assemble_inv _ _ _ Heq) as (first & rest & Hobj & Hrest).
  destruct (assemble_eq self first rest Hobj Hrest)
    as (m & dz & dy & dx & _ & _ & _ & _ & Hclosed).
  rewrite Hclosed in Heq. injection Heq as <- _.
  eexists first, _. rewrite Hobj. split; [done|]. split; [done|].
  unfold stack_spacing. by destruct (_ =? _)%float.
Qed.

(** X6. [complete] can be run again: on the stack it returned, with a check
    that accepts it again, it returns the same stack and gives the same
    warnings. *)
Theorem complete_is_idempotent (self st : ImageITKFileStack)
    (warnings : list UserWarning) :
  complete check self = Ok (st, warnings) →
  complete check st = Ok (st, warnings).
Proof.
  intros Hcomplete. pose proof (complete_inv _ _ _ Hcomplete) as Heq.
  assert (Hcheck : check st = Ok ()).
  { unfold complete in Hcomplete. rewrite Heq in Hcomplete.
    simpl in Hcomplete. by destruct (check st) as [[]|]. }
  apply complete_eq; [|done].
  destruct (assemble_inv _ _ _ Heq) as (first & rest & Hobj & Hrest).
  destruct (assemble_eq self first rest Hobj Hrest)
    as (m & dz & dy & dx & Hm & Hdz & Hdy & Hdx & Hclosed).
  rewrite Hclosed in Heq. injection Heq as <- <-.
  match goal with |- assemble ?s = _ => set (st := s) end.
  destruct (assemble_eq st first rest eq_refl Hrest)
    as (m' & dz' & dy' & dx' & Hm' & Hdz' & Hdy' & Hdx' & ->).
  rewrite Hm in Hm'. rewrite Hdz in Hdz'. rewrite Hdy in Hdy'.
  rewrite Hdx in Hdx'.
  injection Hm' as <-. injection Hdz' as <-. injection Hdy' as <-.
  injection Hdx' as <-.
  subst st. cbn [image_metadata slice_positions].
  by destruct (existsb _ _).
Qed.

Lemma cumsum_from_length (acc : float) (a : list float) :
  length (np.cumsum_from acc a) = length a.
Proof.
  revert acc. induction a as [|x a IH]; intros acc; [done|].
  simpl. by rewrite IH.
Qed.

(** X7. Whenever [complete] returns and gives a warning, [slice_positions] has
    one entry for each slice, and the first entry is 0.0. *)
Theorem slice_positions_one_per_slice (self st : ImageITKFileStack)
    (warnings : list UserWarning) :
  complete check self = Ok (st, warnings) → warnings ≠ [] →
  ∃ positions,
    slice_positions st = Some (0%float :: positions) ∧
    length (0%float :: positions) = length (image_file_objects self).
Proof.
  intros Heq%complete_inv Hwarn.
  destruct (assemble_inv _ _ _ Heq) as (first & rest & Hobj & Hrest).
  destruct (assemble_eq self first rest Hobj Hrest)
    as (m & dz & dy & dx & _ & _ & _ & _ & Hclosed).
  rewrite Hclosed in Heq. injection Heq as <- <-.
  cbn [slice_positions]. destruct (existsb _ _); [|done].
  eexists. split; [done|].
  rewrite Hobj. simpl. rewrite cumsum_from_length, length_map.
  unfold resolver.gaps. rewrite consecutive_length, sorted_origins_length.
  done.
Qed.

(** X8. A stack of exactly two slices has a single distance, so it is never
    irregular: assembly gives no warning and leaves [slice_positions] as it
    was, wherever the two slices are. *)
Theorem two_slices_never_warn (self : ImageITKFileStack)
    (a b : ImageITKFile) :
  image_file_objects self = [a; b] →
  ∃ st,
    assemble self = Ok (st, []) ∧
    slice_positions st = slice_positions self ∧
    (check st = Ok () → complete check self = Ok (st, [])).
Proof.
  intros Hobj.
  destruct (assemble_eq self a [b] Hobj) as
    (m & dz & dy & dx & Hm & _ & _ & _ & Hclosed); [done|].
  assert (Hgaps : ∃ d, resolver.gaps [a; b] = [d]).
  { unfold resolver.gaps.
    pose proof (sorted_origins_length [a; b]) as Hlen.
    destruct (resolver.sorted_origins [a; b]) as [|p [|q [|]]];
      try done. by eexists. }
  destruct Hgaps as [d Hd]. rewrite Hd in Hm, Hclosed.
  injection Hm as <-.
  assert (Hregular : existsb (resolver.irregular d) [d] = false).
  { simpl. unfold resolver.irregular, resolver.multiplier.
    by rewrite div_self_not_above. }
  cbv zeta in Hclosed. rewrite Hregular in Hclosed.
  eexists. split; [exact Hclosed|]. split; [done|].
  intros Hcheck. by apply complete_eq.
Qed.

(** The distances of lines 57-60 are the gaps between the sorted origins. *)
Lemma slice_distances_gaps (objects : list ImageITKFile) :
  slice_distances (position_table objects) = resolver.gaps objects.
Proof.
  by rewrite slice_distances_consecutive, position_table_origins.
Qed.

(** X14. An evenly spaced stack never warns: if the distances between
    consecutive rows of the position table are all the same number, however
    many slices there are, there is no warning and [slice_positions] is
    left as it was. *)
Theorem even_spacing_never_warns (self : ImageITKFileStack) (d : float) :
  (2 ≤ length (image_file_objects self))%nat →
  (∀ g, g ∈ slice_distances (position_table (image_file_objects self)) →
        g = d) →
  ∃ st,
    assemble self = Ok (st, []) ∧
    slice_positions st = slice_positions self ∧
    (check st = Ok () → complete check self = Ok (st, [])).
Proof.
  intros Hlen Heven. rewrite slice_distances_gaps in Heven.
  destruct (two_slices (image_file_objects self) Hlen)
    as (first & rest & Hobj & Hrest).
  destruct (assemble_eq self first rest Hobj Hrest) as
    (m & dz & dy & dx & Hm & _ & _ & _ & Hclosed).
  rewrite Hobj in Heven.
  assert (Hmin : ∀ g, g ∈ resolver.gaps (first :: rest) → g = m).
  { apply min_all_equal; [done|]. intros g g' Hg Hg'.
    by rewrite (Heven g Hg), (Heven g' Hg'). }
  assert (Hregular :
    existsb (resolver.irregular m) (resolver.gaps (first :: rest)) = false).
  { apply not_true_is_false. intros (g & Hg & Hirr)%existsb_exists.
    apply list_elem_of_In, Hmin in Hg as ->.
    unfold resolver.irregular, resolver.multiplier in Hirr.
    by rewrite div_self_not_above in Hirr. }
  cbv zeta in Hclosed. rewrite Hregular in Hclosed.
  eexists. split; [exact Hclosed|]. split; [done|].
  intros Hcheck. by apply complete_eq.
Qed.

End Stack.

(** ** The order in which the slices are given *)

Section Order.
Import itk.

Lemma sorted_origins_sort (objects : list ImageITKFile) :
  resolver.sorted_origins objects
  = stable_sort resolver.compare_origins
      (resolver.canonical_origin <$> objects).
Proof.
  unfold resolver.sorted_origins, resolver.sorted_slices.
  change resolver.compare_slices
    with (λ a b, resolver.compare_origins (resolver.canonical_origin a)
                   (resolver.canonical_origin b)).
  apply stable_sort_map.
Qed.

(** The sorted origins do not depend on the order of the slices, if
    origins that compare equal are the same triple of numbers (0.0 and
    -0.0 compare equal and are not). *)
Lemma sorted_origins_of_permutation (objects objects' : list ImageITKFile) :
  objects ≡ₚ objects' →
  (∀ p q, p ∈ resolver.canonical_origin <$> objects →
          q ∈ resolver.canonical_origin <$> objects →
          resolver.compare_origins p q = Eq → p = q) →
  resolver.sorted_origins objects = resolver.sorted_origins objects'.
Proof.
  intros Hperm Hdistinct. rewrite !sorted_origins_sort.
  apply (ascending_unique resolver.compare_origins).
  - intros a b. apply compare_origins_antisym.
  - intros p q Hp Hq. rewrite stable_sort_Permutation in Hp, Hq.
    by apply Hdistinct.
  - by rewrite !stable_sort_Permutation, Hperm.
  - apply stable_sort_StronglySorted.
    + intros a b. apply compare_origins_antisym.
    + intros a b c. apply compare_origins_trans.
  - apply stable_sort_StronglySorted.
    + intros a b. apply compare_origins_antisym.
    + intros a b c. apply compare_origins_trans.
Qed.

(** The positions in the rows of the table are the origins of the slices,
    reversed to (z, y, x). *)
Lemma position_table_rows (objects : list ImageITKFile) (p : triple float) :
  p ∈ resolver.canonical_origin <$> objects →
  ∃ r, r ∈ position_table objects ∧ p = pd.row_origin r.
Proof.
  intros Hp.
  assert (Hin : p ∈ pd.row_origin <$> position_table objects).
  { rewrite position_table_origins. unfold resolver.sorted_origins.
    by rewrite sorted_slices_Permutation. }
  apply list_elem_of_fmap in Hin as (r & -> & Hr). by exists r.
Qed.

(** X9. What [complete] derives from the positions does not depend on the
    order in which the slices are given: two stacks with the same slices in
    different orders get the same warnings, the same [slice_positions],
    the same z-row of the orientation and the same number of slices,
    provided that rows of the position table that compare equal under
    [sort_values] hold the same numbers (0.0 and -0.0 compare equal and
    are not the same). *)
Theorem order_of_slices_does_not_matter (self self' st : ImageITKFileStack)
    (warnings : list UserWarning) :
  image_file_objects self ≡ₚ image_file_objects self' →
  (∀ r r', r ∈ position_table (image_file_objects self) →
           r' ∈ position_table (image_file_objects self) →
           pd.compare_rows r r' = Eq → pd.row_origin r = pd.row_origin r') →
  slice_positions self' = slice_positions self →
  assemble self = Ok (st, warnings) →
  ∃ st',
    assemble self' = Ok (st', warnings) ∧
    slice_positions st' = slice_positions st ∧
    item0 <$> image_orientation st' = item0 <$> image_orientation st ∧
    item0 <$> image_dimension st' = item0 <$> image_dimension st.
Proof.
  intros Hperm Hrows Hpos Heq.
  assert (Hdistinct :
    ∀ p q, p ∈ resolver.canonical_origin <$> image_file_objects self →
           q ∈ resolver.canonical_origin <$> image_file_objects self →
           resolver.compare_origins p q = Eq → p = q).
  { intros p q (r & Hr & ->)%position_table_rows
      (r' & Hr' & ->)%position_table_rows Hcmp.
    by apply Hrows. }
  pose proof (sorted_origins_of_permutation _ _ Hperm Hdistinct) as Horigins.
  destruct (assemble_inv _ _ _ Heq) as (first & rest & Hobj & Hrest).
  destruct (two_slices (image_file_objects self'))
    as (first' & rest' & Hobj' & Hrest').
  { rewrite <- Hperm, Hobj. destruct rest; [done|]. simpl. lia. }
  rewrite Hobj, Hobj' in Horigins.
  assert (Hlen : length (first' :: rest') = length (first :: rest))
    by (by rewrite <- Hobj, <- Hobj', Hperm).
  destruct (assemble_eq self first rest Hobj Hrest)
    as (m & dz & dy & dx & Hm & Hdz & Hdy & Hdx & Hclosed).
  destruct (assemble_eq self' first' rest' Hobj' Hrest')
    as (m' & dz' & dy' & dx' & Hm' & Hdz' & Hdy' & Hdx' & Hclosed').
  unfold resolver.gaps in *. rewrite <- Horigins in *.
  rewrite Hm in Hm'. rewrite Hdz in Hdz'. rewrite Hdy in Hdy'.
  rewrite Hdx in Hdx'.
  injection Hm' as <-. injection Hdz' as <-. injection Hdy' as <-.
  injection Hdx' as <-.
  rewrite Hclosed in Heq. injection Heq as <- <-.
  eexists. split; [exact Hclosed'|].
  cbn [slice_positions image_orientation image_dimension].
  rewrite Hpos, Hlen. done.
Qed.

End Order.

(** ** More on [CTImage] *)

Section CTImageMore.
Import images.

Variable super_normalise_intensities :
  method → range → range → mask → ref → store → result (ref * store).
Variable super_scale_intensities : float → ref → store → result (ref * store).

Lemma round_of_integers (d : list float) :
  Forall (λ v, is_Some (integer_value v)) d → np.round d = d.
Proof.
  induction 1 as [|v d [z Hz] _ IH]; [done|].
  unfold np.round in *. simpl. by rewrite (rint_of_integer v z), IH.
Qed.

Lemma round_idempotent (d : list float) : np.round (np.round d) = np.round d.
Proof.
  unfold np.round. rewrite map_map. apply map_ext. intros v.
  apply rint_idempotent.
Qed.

Lemma set_image_data_id (o : image) :
  set_image_data (image_data o) o = o.
Proof. by destruct o. Qed.

(** X10. Voxel values that are whole numbers already are Hounsfield units:
    [update_image_data] leaves the image, and the whole store, as it is. *)
Theorem update_image_data_keeps_integers (self : ref) (h : store)
    (o : image) (d : list float) :
  h !! self = Some o → image_data o = Some d →
  Forall (λ v, is_Some (integer_value v)) d →
  ct_image.update_image_data self h = Ok h.
Proof.
  intros Ho Hd Hint. unfold ct_image.update_image_data, deref.
  rewrite Ho. simpl. rewrite Hd, (round_of_integers d Hint), <- Hd.
  by rewrite set_image_data_id, insert_id.
Qed.

(** X11. [update_image_data] is idempotent: run on the store it returned, it
    changes nothing more, whatever the voxel values are. *)
Theorem update_image_data_is_idempotent (self : ref) (h h1 : store) :
  ct_image.update_image_data self h = Ok h1 →
  ct_image.update_image_data self h1 = Ok h1.
Proof.
  unfold ct_image.update_image_data, deref.
  destruct (h !! self) as [o|] eqn:Ho; [|done]. simpl.
  destruct (image_data o) as [d|] eqn:Hd.
  - intros [= <-]. rewrite lookup_insert_eq. simpl.
    rewrite round_idempotent, insert_insert_eq. done.
  - intros [= <-]. rewrite Ho. simpl. by rewrite Hd.
Qed.

(** X12. [scale_intensities] returns [self] or a reference that was not in
    use; the image that the inherited method returned is returned only when
    it is [self]. It returns [self], in the store the inherited method
    left, exactly if that image has no voxel data or the scale is the
    number 1.0; otherwise the reference is new and holds a [GenericImage]
    with the voxel data of that image. No object that existed is
    changed. *)
Theorem scale_intensities_self_or_new (scale : float) (self image : ref)
    (h h1 : store) (t : images.image) :
  super_scale_intensities scale self h = Ok (image, h1) →
  h1 !! image = Some t → is_Some (h1 !! self) →
  ∃ r h2,
    ct_image.scale_intensities super_scale_intensities scale self h
    = Ok (r, h2) ∧
    (∀ l, is_Some (h1 !! l) → h2 !! l = h1 !! l) ∧
    ((r = self ∧ h2 = h1 ∧ (image_data t = None ∨ scale = 1%float))
     ∨ (r ≠ self ∧ h1 !! r = None ∧ is_Some (image_data t) ∧
        scale ≠ 1%float ∧
        ∃ g, h2 !! r = Some g ∧ class g = GenericImage ∧
             image_data g = image_data t)).
Proof.
  intros Hsuper Ht [o Hself].
  unfold ct_image.scale_intensities. rewrite Hsuper. simpl.
  unfold deref. rewrite Ht. simpl.
  destruct (image_data t) as [d|] eqn:Hd.
  - destruct (scale =? 1)%float eqn:Hs.
    + eexists _, _. split; [done|]. split; [done|]. left.
      repeat split. right. by apply eqb_one.
    + rewrite (as_generic_image_eq image d h1 t Ht).
      assert (Hnew : fresh (dom h1) ≠ self).
      { intros Heq. rewrite <- Heq, fresh_ref_unused in Hself. done. }
      eexists _, _. split; [done|]. split.
      * intros l [x Hl]. rewrite lookup_insert_ne; [done|].
        intros <-. by rewrite fresh_ref_unused in Hl.
      * right. split; [done|]. split; [apply fresh_ref_unused|].
        split; [done|]. split.
        { intros Hone%eqb_one. congruence. }
        eexists. split; [apply lookup_insert_eq|done].
  - eexists _, _. split; [done|]. split; [done|]. left.
    repeat split. by left.
Qed.

(** X13. [normalise_intensities] returns [self] or a reference that was not
    in use; the image that the inherited method returned is returned only
    when it is [self]. It returns [self], in the store the inherited method
    left, exactly if that image has no voxel data or the method is absent
    or ["none"]; otherwise the reference is new and holds a [GenericImage]
    with the voxel data of that image. No object that existed is
    changed. *)
Theorem normalise_intensities_self_or_new (m : method)
    (intensity_range saturation_range : range) (msk : mask)
    (self image : ref) (h h1 : store) (t : images.image) :
  super_normalise_intensities m intensity_range saturation_range msk self h
  = Ok (image, h1) →
  h1 !! image = Some t → is_Some (h1 !! self) →
  ∃ r h2,
    ct_image.normalise_intensities super_normalise_intensities m
      intensity_range saturation_range msk self h = Ok (r, h2) ∧
    (∀ l, is_Some (h1 !! l) → h2 !! l = h1 !! l) ∧
    ((r = self ∧ h2 = h1 ∧ (image_data t = None ∨ is_none m = true))
     ∨ (r ≠ self ∧ h1 !! r = None ∧ is_Some (image_data t) ∧
        is_none m = false ∧
        ∃ g, h2 !! r = Some g ∧ class g = GenericImage ∧
             image_data g = image_data t)).
Proof.
  intros Hsuper Ht [o Hself].
  unfold ct_image.normalise_intensities. rewrite Hsuper. simpl.
  unfold deref. rewrite Ht. simpl.
  destruct (image_data t) as [d|] eqn:Hd.
  - destruct (is_none m) eqn:Hm.
    + eexists _, _. split; [done|]. split; [done|]. left.
      repeat split. by right.
    + rewrite (as_generic_image_eq image d h1 t Ht).
      assert (Hnew : fresh (dom h1) ≠ self).
      { intros Heq. rewrite <- Heq, fresh_ref_unused in Hself. done. }
      eexists _, _. split; [done|]. split.
      * intros l [x Hl]. rewrite lookup_insert_ne; [done|].
        intros <-. by rewrite fresh_ref_unused in Hl.
      * right. split; [done|]. split; [apply fresh_ref_unused|].
        split; [done|]. split; [done|].
        eexists. split; [apply lookup_insert_eq|done].
  - eexists _, _. split; [done|]. split; [done|]. left.
    repeat split. by left.
Qed.

End CTImageMore.

(** ** The further properties on the example stacks and images *)

Section MoreExamples.
Import itk.
Local Open Scope float_scope.

(** X1, on a stack without slices. *)
Lemma empty_stack_raises_on_example :
  image_file_objects (examples.stack []) = [] ∧
  complete examples.accept (examples.stack []) = Raise IndexError.
Proof.
  assert (H : image_file_objects (examples.stack []) = []) by reflexivity.
  split; [exact H|].
  exact (empty_stack_raises_index_error examples.accept _ H).
Defined.

(** X2, on two slices given upper first. *)
Lemma file_objects_of_upper_first :
  ∃ st warnings,
    complete examples.accept examples.upper_first = Ok (st, warnings) ∧
    image_file_objects st = [examples.upper; examples.lower] ∧
    image_metadata st = image_metadata examples.upper_first.
Proof.
  destruct (complete examples.accept examples.upper_first)
    as [[st warnings]|e] eqn:H; [|by vm_compute in H].
  exists st, warnings. split; [reflexivity|].
  exact (complete_keeps_file_objects examples.accept _ st warnings H).
Defined.

(** X3, on three slices at z = 0, 1, 2, given in this order. *)
Lemma origin_of_even_stack :
  ∃ st warnings first r,
    complete examples.accept examples.even_stack = Ok (st, warnings) ∧
    getitem (image_file_objects examples.even_stack) 0 = Ok first ∧
    image_origin st = Some (reversed (GetOrigin (file_metadata first))) ∧
    getitem (position_table (image_file_objects examples.even_stack)) 0
    = Ok r ∧
    image_origin st = Some (pd.row_origin r).
Proof.
  destruct (complete examples.accept examples.even_stack)
    as [[st warnings]|e] eqn:H; [|by vm_compute in H].
  destruct (origin_of_first_file_object examples.accept _ st warnings H)
    as (first & Hfirst & Horigin & Hsorted).
  destruct Hsorted as (r & Hr & Hlowest); [by vm_compute|].
  by exists st, warnings, first, r.
Defined.

(** X4, on three slices at z = 0, 1, 3. *)
Lemma dimension_of_gapped_stack :
  ∃ st warnings,
    complete examples.accept examples.gapped_stack = Ok (st, warnings) ∧
    image_dimension st = Some (Tuple3 3%nat 48%nat 32%nat).
Proof.
  destruct (complete examples.accept examples.gapped_stack)
    as [[st warnings]|e] eqn:H; [|by vm_compute in H].
  exists st, warnings. split; [reflexivity|].
  exact (dimension_counts_slices examples.accept _ st warnings H).
Defined.

(** X5, on two slices given upper first. *)
Lemma in_plane_spacing_of_upper_first :
  ∃ st warnings spacing,
    complete examples.accept examples.upper_first = Ok (st, warnings) ∧
    image_spacing st = Some spacing ∧
    item1 spacing = 0.5 ∧ item2 spacing = 0.5.
Proof.
  destruct (complete examples.accept examples.upper_first)
    as [[st warnings]|e] eqn:H; [|by vm_compute in H].
  destruct (in_plane_spacing_is_nominal examples.accept _ st warnings H)
    as (first & spacing & Hfirst & Hspacing & Hy & Hx).
  injection Hfirst as <-.
  by exists st, warnings, spacing.
Defined.

(** X6, on three slices at z = 0, 1, 3. *)
Lemma complete_twice_on_gapped_stack :
  ∃ st warnings,
    complete examples.accept examples.gapped_stack = Ok (st, warnings) ∧
    complete examples.accept st = Ok (st, warnings).
Proof.
  destruct (complete examples.accept examples.gapped_stack)
    as [[st warnings]|e] eqn:H; [|by vm_compute in H].
  exists st, warnings. split; [reflexivity|].
  exact (complete_is_idempotent examples.accept _ st warnings H).
Defined.

(** X7, on three slices at z = 0, 1, 3. *)
Lemma slice_positions_of_gapped_stack :
  ∃ st warnings positions,
    complete examples.accept examples.gapped_stack = Ok (st, warnings) ∧
    warnings ≠ [] ∧
    slice_positions st = Some (0 :: positions) ∧
    length (0 :: positions) = 3%nat.
Proof.
  destruct (complete examples.accept examples.gapped_stack)
    as [[st warnings]|e] eqn:H; [|by vm_compute in H].
  assert (Hwarn : warnings ≠ []).
  { intros ->. vm_compute in H. discriminate H. }
  destruct (slice_positions_one_per_slice examples.accept _ st warnings H
              Hwarn) as (positions & Hpos & Hlen).
  by exists st, warnings, positions.
Defined.

(** X8, on two slices given upper first. *)
Lemma upper_first_does_not_warn :
  image_file_objects examples.upper_first = [examples.upper; examples.lower] ∧
  ∃ st,
    complete examples.accept examples.upper_first = Ok (st, []) ∧
    slice_positions st = None.
Proof.
  assert (H : image_file_objects examples.upper_first
              = [examples.upper; examples.lower]) by reflexivity.
  split; [exact H|].
  destruct (two_slices_never_warn examples.accept _ _ _ H)
    as (st & _ & Hpos & Hcomplete).
  exists st. split; [by apply Hcomplete|exact Hpos].
Defined.

(** X9, on two slices given upper first and given lower first. *)
Lemma upper_first_or_lower_first :
  image_file_objects examples.upper_first
  ≡ₚ image_file_objects (examples.stack [examples.lower; examples.upper]) ∧
  ∃ st st' warnings,
    assemble examples.upper_first = Ok (st, warnings) ∧
    assemble (examples.stack [examples.lower; examples.upper])
    = Ok (st', warnings) ∧
    slice_positions st' = slice_positions st ∧
    item0 <$> image_orientation st' = item0 <$> image_orientation st.
Proof.
  assert (Hperm : image_file_objects examples.upper_first
                  ≡ₚ image_file_objects
                       (examples.stack [examples.lower; examples.upper]))
    by apply Permutation_swap.
  split; [exact Hperm|].
  destruct (assemble examples.upper_first) as [[st warnings]|e] eqn:H;
    [|by vm_compute in H].
  destruct (order_of_slices_does_not_matter examples.upper_first
              (examples.stack [examples.lower; examples.upper]) st warnings
              Hperm)
    as (st' & Heq & Hpos & Hrow & _); [|reflexivity|exact H|].
  - intros r r' Hr Hr' Hcmp.
    apply list_elem_of_In in Hr, Hr'. vm_compute in Hr, Hr'.
    destruct Hr as [<-|[<-|[]]], Hr' as [<-|[<-|[]]];
      try reflexivity; vm_compute in Hcmp; discriminate Hcmp.
  - by exists st, st', warnings.
Defined.

(** X10, on a CT image with the voxels 1, 2, 3 and 4. *)
Lemma whole_voxels_are_kept :
  examples.one_ct (Some [1; 2; 3; 4]) !! 0%nat
  = Some (examples.ct (Some [1; 2; 3; 4])) ∧
  ct_image.update_image_data 0%nat (examples.one_ct (Some [1; 2; 3; 4]))
  = Ok (examples.one_ct (Some [1; 2; 3; 4])).
Proof.
  assert (Ho : examples.one_ct (Some [1; 2; 3; 4]) !! 0%nat
               = Some (examples.ct (Some [1; 2; 3; 4]))) by reflexivity.
  split; [exact Ho|].
  apply (update_image_data_keeps_integers 0%nat _ _ [1; 2; 3; 4] Ho);
    [reflexivity|].
  repeat constructor; vm_compute; eexists; reflexivity.
Defined.

(** X11, on a CT image with the voxels 2.5, -0.5, 3.5 and 1.25. *)
Lemma update_image_data_twice :
  ∃ h1,
    ct_image.update_image_data 0%nat
      (examples.one_ct (Some [2.5; -0.5; 3.5; 1.25])) = Ok h1 ∧
    ct_image.update_image_data 0%nat h1 = Ok h1.
Proof.
  destruct (ct_image.update_image_data 0%nat
              (examples.one_ct (Some [2.5; -0.5; 3.5; 1.25])))
    as [h1|e] eqn:H; [|by vm_compute in H].
  exists h1. split; [reflexivity|].
  exact (update_image_data_is_idempotent 0%nat _ h1 H).
Defined.

(** X12, on a CT image of four voxels, scaled by 2. *)
Lemma scale_by_two_returns_new :
  ∃ r h2,
    ct_image.scale_intensities generic_image.scale_intensities 2 0%nat
      (examples.one_ct (Some [1; 2; 3; 4])) = Ok (r, h2) ∧
    h2 !! 0%nat = Some (examples.ct (Some [1; 2; 3; 4])).
Proof.
  edestruct (scale_intensities_self_or_new generic_image.scale_intensities
               2 0%nat)
    with (h := examples.one_ct (Some [1; 2; 3; 4]))
    as (r & h2 & Heq & Hframe & _);
    [vm_compute; reflexivity | vm_compute; reflexivity
    | eexists; vm_compute; reflexivity |].
  exists r, h2. split; [exact Heq|].
  rewrite Hframe; [vm_compute; reflexivity|].
  eexists; vm_compute; reflexivity.
Defined.

(** X13, on a CT image of four voxels, normalised with a method that halves
    the values. *)
Lemma normalise_range_returns_new :
  ∃ r h2,
    ct_image.normalise_intensities
      (generic_image.normalise_intensities examples.halve) (Some "range")
      None None None 0%nat (examples.one_ct (Some [1; 2; 3; 4]))
    = Ok (r, h2) ∧
    h2 !! 0%nat = Some (examples.ct (Some [1; 2; 3; 4])).
Proof.
  edestruct (normalise_intensities_self_or_new
               (generic_image.normalise_intensities examples.halve)
               (Some "range"%string) None None None 0%nat)
    with (h := examples.one_ct (Some [1; 2; 3; 4]))
    as (r & h2 & Heq & Hframe & _);
    [vm_compute; reflexivity | vm_compute; reflexivity
    | eexists; vm_compute; reflexivity |].
  exists r, h2. split; [exact Heq|].
  rewrite Hframe; [vm_compute; reflexivity|].
  eexists; vm_compute; reflexivity.
Defined.

(** X14, on three slices at z = 0, 1, 2. *)
Lemma even_stack_does_not_warn :
  (2 ≤ length (image_file_objects examples.even_stack))%nat ∧
  ∃ st,
    complete examples.accept examples.even_stack = Ok (st, []) ∧
    slice_positions st = None.
Proof.
  assert (Hlen : (2 ≤ length (image_file_objects examples.even_stack))%nat)
    by (simpl; lia).
  split; [exact Hlen|].
  destruct (even_spacing_never_warns examples.accept examples.even_stack 1
              Hlen)
    as (st & _ & Hpos & Hcomplete).
  - intros g Hg. apply list_elem_of_In in Hg. vm_compute in Hg.
    by destruct Hg as [<-|[<-|[]]].
  - exists st. split; [by apply Hcomplete|exact Hpos].
Defined.

End MoreExamples.
